(** * Shift policy of the Hessenberg QR eigenvalue iteration

    A shallow embedding of [tlapack::hqr_formshift] (file
    [hqr_formshift.hpp], adapted from EISPACK's [hqr2]) and of the driver
    that calls it, with the properties the specification states about
    them. *)

From Stdlib Require Import ZArith QArith Qabs Bool Lia.
From stdpp Require Import base list.

Local Open Scope Z_scope.

(** ** Index arithmetic

    [idx_t] is [size_type<matrix_t>], an unsigned 64-bit integer
    ([std::size_t] for the matrix types the tests instantiate).  An index is
    a [Z] in [[0, 2^64)]; subtraction and increment wrap around. *)

Definition idx_modulus : Z := 2 ^ 64.

Definition idx_wrap (z : Z) : Z := z mod idx_modulus.

Definition idx_sub (a b : Z) : Z := idx_wrap (a - b).

Definition idx_succ (i : Z) : Z := idx_wrap (i + 1).

(** ** Scalars

    [real_t] is [real_type<type_t<matrix_t>>]: the routine is a template
    over the element type, so the embedding is generic over a type with the
    operations the code applies to it.  [rlit] is the value of a floating
    literal of the source ([0.75], [0.4375]); [rdiv], [rsqrt] and [rltb] are
    used by the driver only. *)

Class RealType (T : Type) : Type := {
  radd : T -> T -> T;
  rsub : T -> T -> T;
  rmul : T -> T -> T;
  rdiv : T -> T -> T;
  ropp : T -> T;
  rabs : T -> T;
  rsqrt : T -> T;
  rltb : T -> T -> bool;
  rlit : Q -> T
}.

(** ** Results

    The routine either returns, rejects its arguments (the
    [tlapack_check_false] on the shape of [A]), reads or writes outside the
    matrix (undefined behaviour in the source, an error here), or fails to
    leave its loop. *)

Inductive error : Type :=
  | BadArgument
  | OutOfBounds
  | NoTermination.

Inductive res (X : Type) : Type :=
  | Ok (v : X)
  | Err (e : error).

Arguments Ok {X} v.
Arguments Err {X} e.

Definition bind {X Y : Type} (m : res X) (f : X -> res Y) : res Y :=
  match m with
  | Ok v => f v
  | Err e => Err e
  end.

Notation "'try' v <- m ; k" := (bind m (fun v => k))
  (at level 10, v name, m at level 100, k at level 200,
   format "'try'  v  <-  m ; '//' k").

Section Formshift.

Context {T : Type} `{RealType T}.

(** ** Dense matrices

    [matrix_t] is used through [nrows], [ncols] and [A(i,j)] only; any
    storage layout behind them is the collaborator's business. *)

Record matrix : Type := mkMatrix {
  nrows : Z;
  ncols : Z;
  entry : Z -> Z -> T
}.

Definition in_range (A : matrix) (i j : Z) : bool :=
  (0 <=? i) && (i <? nrows A) && (0 <=? j) && (j <? ncols A).

(** [A(i,j)] as an rvalue. *)
Definition read (A : matrix) (i j : Z) : res T :=
  if in_range A i j then Ok (entry A i j) else Err OutOfBounds.

(** [A(i,j) = v]. *)
Definition write (A : matrix) (i j : Z) (v : T) : res matrix :=
  if in_range A i j
  then Ok (mkMatrix (nrows A) (ncols A)
             (fun i' j' => if (i' =? i) && (j' =? j) then v else entry A i' j'))
  else Err OutOfBounds.

(** ** Shift state

    The five scalars the routine receives through the pointers [s], [t],
    [x], [y], [w].  The driver passes the addresses of five distinct local
    variables, so the five locations are modelled as the fields of one
    record. *)

Record shift : Type := mkShift {
  sh_s : T;
  sh_t : T;
  sh_x : T;
  sh_y : T;
  sh_w : T
}.

Definition set_s (st : shift) (v : T) : shift :=
  mkShift v (sh_t st) (sh_x st) (sh_y st) (sh_w st).
Definition set_t (st : shift) (v : T) : shift :=
  mkShift (sh_s st) v (sh_x st) (sh_y st) (sh_w st).
Definition set_x (st : shift) (v : T) : shift :=
  mkShift (sh_s st) (sh_t st) v (sh_y st) (sh_w st).
Definition set_y (st : shift) (v : T) : shift :=
  mkShift (sh_s st) (sh_t st) (sh_x st) v (sh_w st).
Definition set_w (st : shift) (v : T) : shift :=
  mkShift (sh_s st) (sh_t st) (sh_x st) (sh_y st) v.

(** ** The exceptional-shift loop

    [for (idx_t i = low; i <= en; i++) A(i,i) -= *x;]

    [fuel] bounds the number of iterations; the caller supplies
    [en + 1 - low], which is what the loop needs unless [i++] wraps. *)

Fixpoint shift_diagonal (fuel : nat) (i en : Z) (xv : T) (A : matrix)
  : res matrix :=
  if i <=? en then
    match fuel with
    | O => Err NoTermination
    | S fuel' =>
        try a <- read A i i ;
        try A' <- write A i i (rsub a xv) ;
        shift_diagonal fuel' (idx_succ i) en xv A'
    end
  else Ok A.

(** ** hqr_formshift

    Lines 42-72 of the source.  Of the argument checks, only the first
    ([n != nrows(A)]) is about the parameters of this routine; the others
    name [want_q], [Q], [Z] and the size of [w], none of which is an object
    of this function, and are not part of the embedding.

    The result is the returned status with the matrix and the five scalars
    as the call leaves them. *)

Definition hqr_formshift (low : Z) (A : matrix) (its itn en l : Z)
  (st : shift) : res (Z * matrix * shift) :=
  let n := ncols A in
  if negb (n =? nrows A) then Err BadArgument else
  try x0 <- read A en en ;
  let st := set_x st x0 in
  if l =? en then Ok (1, A, st) else
  try y0 <- read A (idx_sub en 1) (idx_sub en 1) ;
  let st := set_y st y0 in
  try a <- read A en (idx_sub en 1) ;
  try b <- read A (idx_sub en 1) en ;
  let st := set_w st (rmul a b) in
  if l =? idx_sub en 1 then Ok (2, A, st) else
  if itn =? 0 then Ok (3, A, st) else
  if negb (its =? 10) && negb (itn =? 20) then Ok (0, A, st) else
  let st := set_t st (radd (sh_t st) (sh_x st)) in
  try A' <- shift_diagonal (Z.to_nat (en + 1 - low)) low en (sh_x st) A ;
  try c <- read A' en (idx_sub en 1) ;
  try d <- read A' (idx_sub en 1) (idx_sub en 2) ;
  let st := set_s st (radd (rabs c) (rabs d)) in
  let st := set_x st (rmul (rlit 0.75) (sh_s st)) in
  let st := set_y st (sh_x st) in
  let st := set_w st (rmul (rmul (ropp (rlit 0.4375)) (sh_s st)) (sh_s st)) in
  Ok (0, A', st).

(** A call the driver can make: [A] is square, its order is an index
    value, [low] and [l] are indices and [en] is a row of [A]. *)
Definition valid_call (A : matrix) (low en l : Z) : Prop :=
  ncols A = nrows A /\ ncols A < idx_modulus /\
  0 <= low /\ 0 <= l /\ 0 <= en < ncols A.

End Formshift.

Arguments matrix T : clear implicits.
Arguments shift T : clear implicits.

(** ** The driver

    [hqr] itself is not among the sources (only the test that calls it is),
    so the driver below follows the specification's description of it. *)

Section Driver.

Context {T : Type} `{RealType T}.

(** Modelled from the spec: the collaborators of the driver, whose code is
    missing: the deflation scan ("largest l in [low,en] with negligible
    subdiagonal"), one implicit double-shift QR sweep on [A] and, when
    requested, on the accumulator [Z], and the iteration budget
    ("proportional to n").  The driver is stated for any of them. *)
Variable find_deflation_row : matrix T -> Z -> Z -> Z.
Variable QRStepEngine :
  Z -> Z -> matrix T -> T -> T -> T -> option (matrix T) ->
  matrix T * option (matrix T).
Variable iteration_budget : Z -> Z.

Definition rzero : T := rlit 0.
Definition rtwo : T := rlit 2.

(** The eigenvalue arrays [wr], [wi]: vectors indexed by row. *)
Definition get (v : list T) (k : Z) : option T := v !! Z.to_nat k.
Definition put (v : list T) (k : Z) (a : T) : list T := <[Z.to_nat k := a]> v.

(** A block the driver has deflated: one row ([en], status 1) or two
    ([en-1] and [en], status 2), with the matrix the shift policy was
    called on when it reported the block. *)
Inductive block : Type :=
  | Real1 (en : Z) (A : matrix T)
  | Block2 (en : Z) (A : matrix T).

(** Modelled from the spec: the variables of the driver (section 3).
    [h_log] is not one of them: it keeps the events "record one real
    eigenvalue at en" and "resolve 2x2 block at en-1,en" of the
    pseudo-code, newest first, for the properties to speak of; nothing the
    driver computes depends on it. *)
Record hqr_state : Type := mkState {
  h_A : matrix T;
  h_Z : option (matrix T);
  h_wr : list T;
  h_wi : list T;
  h_sh : shift T;
  h_en : Z;
  h_its : Z;
  h_itn : Z;
  h_log : list block
}.

(** Modelled from the spec: the ways the driver ends: success,
    non-convergence at row [en] (section 7), rejected arguments (section
    7); to these the embedding adds a failed call of the shift policy and
    a loop that does not end. *)
Inductive outcome : Type :=
  | Success (st : hqr_state)
  | NonConvergence (en : Z) (st : hqr_state)
  | Rejected
  | Fault (e : error)
  | OutOfFuel.

(** How the inner loop is left: by [break], or by leaving the driver. *)
Inductive turn : Type :=
  | Break (st : hqr_state)
  | Abort (o : outcome).

(** Modelled from the spec: status 1 of section 4.1, "single real
    eigenvalue at row en (x = A(en,en) is the eigenvalue; wi for this index
    is zero)". *)
Definition record_real (wr wi : list T) (en : Z) (x : T) : list T * list T :=
  (put wr en x, put wi en rzero).

(** Modelled from the spec: status 2 of section 4.1, the resolution of the
    2x2 block at rows [en-1], [en] by the standard formula: with
    discriminant [((x-y)/2)^2 + w], nonnegative gives two reals, negative a
    complex pair with imaginary part [sqrt(-discriminant)]; the row with
    the positive imaginary part comes first, as the test reads the arrays. *)
Definition resolve_2x2 (wr wi : list T) (en : Z) (x y w : T)
  : list T * list T :=
  let p := rdiv (rsub x y) rtwo in
  let disc := radd (rmul p p) w in
  let m := rdiv (radd x y) rtwo in
  if rltb disc rzero then
    let im := rsqrt (ropp disc) in
    (put (put wr (en - 1) m) en m,
     put (put wi (en - 1) im) en (ropp im))
  else
    let z := rsqrt disc in
    (put (put wr (en - 1) (radd m z)) en (rsub m z),
     put (put wi (en - 1) rzero) en rzero).

(** Modelled from the spec: the inner [loop] of the state machine of
    section 4.3, for the window bottom [en] of the state: scan, form the
    shift, then deflate and [break], or fail, or sweep and go round again
    with [its += 1; itn -= 1]. *)
Fixpoint hqr_inner (fuel : nat) (low : Z) (st : hqr_state) : turn :=
  match fuel with
  | O => Abort OutOfFuel
  | S fuel' =>
      let en := h_en st in
      let l := find_deflation_row (h_A st) low en in
      match hqr_formshift low (h_A st) (h_its st) (h_itn st) en l (h_sh st) with
      | Err e => Abort (Fault e)
      | Ok (status, A', sh') =>
          if status =? 1 then
            let '(wr', wi') := record_real (h_wr st) (h_wi st) en (sh_x sh') in
            Break (mkState A' (h_Z st) wr' wi' sh' (en - 1) (h_its st) (h_itn st)
                     (Real1 en (h_A st) :: h_log st))
          else if status =? 2 then
            let '(wr', wi') :=
              resolve_2x2 (h_wr st) (h_wi st) en (sh_x sh') (sh_y sh') (sh_w sh') in
            Break (mkState A' (h_Z st) wr' wi' sh' (en - 2) (h_its st) (h_itn st)
                     (Block2 en (h_A st) :: h_log st))
          else if status =? 3 then
            Abort (NonConvergence en
                     (mkState A' (h_Z st) (h_wr st) (h_wi st) sh' en
                        (h_its st) (h_itn st) (h_log st)))
          else
            let '(A'', Z') :=
              QRStepEngine l en A' (sh_x sh') (sh_y sh') (sh_w sh') (h_Z st) in
            hqr_inner fuel' low
              (mkState A'' Z' (h_wr st) (h_wi st) sh' en
                 (h_its st + 1) (h_itn st - 1) (h_log st))
      end
  end.

(** Modelled from the spec: the outer [while en >= low] of section 4.3,
    which resets [its] and runs the inner loop.  With [itn] units of budget
    the inner loop makes at most [itn + 1] turns. *)
Fixpoint hqr_outer (fuel : nat) (low : Z) (st : hqr_state) : outcome :=
  if h_en st <? low then Success st else
  match fuel with
  | O => OutOfFuel
  | S fuel' =>
      let st0 :=
        mkState (h_A st) (h_Z st) (h_wr st) (h_wi st) (h_sh st) (h_en st)
          0 (h_itn st) (h_log st) in
      match hqr_inner (Z.to_nat (h_itn st + 1)) low st0 with
      | Break st' => hqr_outer fuel' low st'
      | Abort o => o
      end
  end.

(** Modelled from the spec: the precondition violations of section 7
    (mismatched matrix and array dimensions, [low > high], non-square
    matrix), with the window invariant [0 <= low <= high <= n-1] of section
    3; the order is an index value. *)
Definition hqr_preconditions (A : matrix T) (low high : Z) (wr wi : list T)
  (Zm : option (matrix T)) : bool :=
  let n := ncols A in
  (nrows A =? n) && (n <? idx_modulus)
  && (Z.of_nat (length wr) =? n) && (Z.of_nat (length wi) =? n)
  && match Zm with
     | Some Zm => (nrows Zm =? n) && (ncols Zm =? n)
     | None => true
     end
  && (0 <=? low) && (low <=? high) && (high <=? n - 1).

(** Modelled from the spec: [hqr], the driver of section 4.3:
    [en := high], [itn := iteration_budget(n)], then the loop.  Each turn
    of the outer loop that does not leave the driver lowers [en], so
    [high - low + 1] turns suffice. *)
Definition hqr (A : matrix T) (low high : Z) (wr wi : list T)
  (Zm : option (matrix T)) : outcome :=
  if hqr_preconditions A low high wr wi Zm then
    let n := ncols A in
    let itn := iteration_budget n in
    hqr_outer (Z.to_nat (high - low + 1)) low
      (mkState A Zm wr wi (mkShift rzero rzero rzero rzero rzero) high 0 itn
         [])
  else Rejected.

(** Modelled from the spec: the value [hqr] returns, "0 on success; on
    failure, the 1-based index of the eigenvalue that failed to converge";
    rows are counted from 0 (the test calls [hqr(H, 0, n - 1, ...)]). *)
Definition return_value (o : outcome) : option Z :=
  match o with
  | Success _ => Some 0
  | NonConvergence en _ => Some (en + 1)
  | _ => None
  end.

(** The reading of the output arrays (the test builds the complex
    eigenvectors from it): row [k] holds a real eigenvalue when [wi[k]] is
    zero; rows [k], [k+1] hold a complex-conjugate pair when
    [wr[k] = wr[k+1]], [wi[k] = -wi[k+1]] and [wi[k]] is positive. *)
Definition real_row (wi : list T) (k : Z) : Prop :=
  get wi k = Some rzero.

Definition conj_pair (wr wi : list T) (k : Z) : Prop :=
  exists re re' im im',
    get wr k = Some re /\ get wr (k + 1) = Some re' /\
    get wi k = Some im /\ get wi (k + 1) = Some im' /\
    re = re' /\ im = ropp im' /\ im <> rzero /\ rltb rzero im = true.

(** Rows [lo+1 .. hi] are all accounted for: each is a real eigenvalue or
    belongs to a conjugate pair lying within those rows. *)
Definition deflated (wr wi : list T) (lo hi : Z) : Prop :=
  forall k, lo < k <= hi ->
    real_row wi k
    \/ (k + 1 <= hi /\ conj_pair wr wi k)
    \/ (lo < k - 1 /\ conj_pair wr wi (k - 1)).

(** What every turn of the loop keeps, for input arrays [wr0], [wi0] of
    length [n]: the rows below the window bottom [en] and outside
    [low .. high] hold what the caller passed, the rows [en+1 .. high] are
    deflated. *)
Definition hqr_invariant (low high n : Z) (wr0 wi0 : list T) (st : hqr_state)
  : Prop :=
  0 <= low /\ high < n /\ n < idx_modulus
  /\ low - 1 <= h_en st <= high
  /\ Z.of_nat (length (h_wr st)) = n /\ Z.of_nat (length (h_wi st)) = n
  /\ deflated (h_wr st) (h_wi st) (h_en st) high
  /\ forall k, 0 <= k -> k <= h_en st \/ high < k ->
       get (h_wr st) k = get wr0 k /\ get (h_wi st) k = get wi0 k.

(** What the loops need to end on matrices of order [n]: a square [A] and
    a budget that is not negative. *)
Definition hqr_measure (n : Z) (st : hqr_state) : Prop :=
  ncols (h_A st) = n /\ nrows (h_A st) = n /\ 0 <= h_itn st.

(** The rows of a block. *)
Definition block_top (b : block) : Z :=
  match b with
  | Real1 en _ => en
  | Block2 en _ => en - 1
  end.

Definition block_bottom (b : block) : Z :=
  match b with
  | Real1 en _ => en
  | Block2 en _ => en
  end.

Definition block_covers (b : block) (k : Z) : Prop :=
  block_top b <= k <= block_bottom b.

(** What the arrays hold of a block, by sections 4.1 and 4.3.  A block of
    one row is a row [en] the deflation scan answered with [l == en]; it is
    reported as the real eigenvalue [A(en,en)], with [wi[en]] zero.  A
    block of two rows is one the scan answered with [l == en - 1]; with
    [x = A(en,en)], [y = A(en-1,en-1)], [w = A(en,en-1) A(en-1,en)] and
    discriminant [((x-y)/2)^2 + w], a negative discriminant is reported as
    the conjugate pair [(x+y)/2 +- i sqrt(-discriminant)], rows [en-1],
    [en] in that order, and any other as two real eigenvalues. *)
Definition block_reported (low : Z) (wr wi : list T) (b : block) : Prop :=
  match b with
  | Real1 en A =>
      find_deflation_row A low en = en
      /\ get wr en = Some (entry A en en)
      /\ real_row wi en
  | Block2 en A =>
      find_deflation_row A low en = en - 1
      /\ let x := entry A en en in
         let y := entry A (en - 1) (en - 1) in
         let w := rmul (entry A en (en - 1)) (entry A (en - 1) en) in
         let p := rdiv (rsub x y) rtwo in
         let disc := radd (rmul p p) w in
         let m := rdiv (radd x y) rtwo in
         if rltb disc rzero then
           get wr (en - 1) = Some m /\ get wr en = Some m
           /\ get wi (en - 1) = Some (rsqrt (ropp disc))
           /\ get wi en = Some (ropp (rsqrt (ropp disc)))
           /\ conj_pair wr wi (en - 1)
         else
           get wr (en - 1) = Some (radd m (rsqrt disc))
           /\ get wr en = Some (rsub m (rsqrt disc))
           /\ real_row wi (en - 1) /\ real_row wi en
  end.

(** What every turn keeps of the log: the blocks deflated so far are the
    rows [en+1 .. high], each within the window and reported. *)
Definition hqr_log_invariant (low high : Z) (st : hqr_state) : Prop :=
  (forall k, h_en st < k <= high ->
     exists b, In b (h_log st) /\ block_covers b k)
  /\ forall b, In b (h_log st) ->
       h_en st < block_top b /\ low <= block_top b /\ block_bottom b <= high
       /\ block_reported low (h_wr st) (h_wi st) b.

End Driver.

(** ** Laws of the scalars

    What the properties of the driver need from the arithmetic; they hold
    of the reals and of the rationals below. *)

Class RealLaws (T : Type) `{RealType T} : Prop := {
  ropp_involutive : forall a : T, ropp (ropp a) = a;
  rltb_irrefl : forall a : T, rltb a a = false;
  rsqrt_pos : forall q : T,
    rltb q (rlit 0) = true -> rltb (rlit 0) (rsqrt (ropp q)) = true
}.

(** ** Exact rationals as scalars

    An instance on which the routines run: the field operations are exact
    and the square root is rounded down to a multiple of [1/den]. *)

Definition Qltb (a b : Q) : bool := negb (Qle_bool b a).

Definition Qsqrt_down (q : Q) : Q :=
  Z.sqrt (Qnum q * Zpos (Qden q)) # Qden q.

#[export] Instance Q_real : RealType Q := {
  radd := Qplus;
  rsub := Qminus;
  rmul := Qmult;
  rdiv := Qdiv;
  ropp := Qopp;
  rabs := Qabs;
  rsqrt := Qsqrt_down;
  rltb := Qltb;
  rlit := fun q => q
}.

(** A matrix given by its rows. *)
Definition of_rows (n : Z) (rows : list (list Q)) : matrix Q :=
  mkMatrix n n (fun i j => nth (Z.to_nat j) (nth (Z.to_nat i) rows []) 0%Q).

(** A deflation scan for exact arithmetic: upward from [en] while the
    subdiagonal entry is not zero, stopping at [low]. *)
Fixpoint scan_up (k : nat) (A : matrix Q) (l : Z) : Z :=
  match k with
  | O => l
  | S k' => if Qeq_bool (entry A l (l - 1)) 0 then l else scan_up k' A (l - 1)
  end.

Definition find_zero_subdiagonal (A : matrix Q) (low en : Z) : Z :=
  scan_up (Z.to_nat (en - low)) A en.

(** A sweep that leaves the matrices as they are, and a budget of [30 n]
    turns. *)
Definition idle_sweep (l en : Z) (A : matrix Q) (x y w : Q)
  (Zm : option (matrix Q)) : matrix Q * option (matrix Q) := (A, Zm).

Definition budget_30 (n : Z) : Z := 30 * n.

(** Sample inputs. *)
Definition sample3 : matrix Q :=
  of_rows 3 [[4; 1; 2]; [3; 5; 1]; [0; 2; 6]]%Q.

Definition schur3 : matrix Q :=
  of_rows 3 [[1; -5; 2]; [1; 3; 1]; [0; 0; 6]]%Q.

Definition shift0 : shift Q := (mkShift 9 8 7 6 5)%Q.

(** The matrix and the scalars a call leaves. *)
Definition out_matrix (r : res (Z * matrix Q * shift Q)) : matrix Q :=
  match r with
  | Ok (_, A, _) => A
  | Err _ => of_rows 0 []
  end.

Definition out_shift (r : res (Z * matrix Q * shift Q)) : shift Q :=
  match r with
  | Ok (_, _, st) => st
  | Err _ => shift0
  end.

(** ** The test's use of the Schur form

    The code of [test_hqr_schurToEigen.cpp] between the call of [hqr] and
    the residual: it clears the Schur matrix [U] below its blocks and
    builds the complex eigenvector matrix [Zc] from [Z] and [wi]. *)

(** [k + j] on indices. *)
Definition idx_add (a b : Z) : Z := idx_wrap (a + b).

(** [for (idx_t i = i0; i < n; i++) body].  [fuel] bounds the number of
    turns; callers supply [n - i0]. *)
Fixpoint for_loop {St : Type} (fuel : nat) (i n : Z)
  (body : Z -> St -> res St) (s : St) : res St :=
  if i <? n then
    match fuel with
    | O => Err NoTermination
    | S fuel' =>
        try s' <- body i s ;
        for_loop fuel' (idx_succ i) n body s'
    end
  else Ok s.

(** [operator==] of the element type. *)
Class RealEq (T : Type) : Type := {
  reqb : T -> T -> bool
}.

Section TestCode.

Context {T : Type} `{RealType T} `{RealEq T}.

(** [v[k]] on a [std::vector]; outside the vector it is undefined
    behaviour in the source and an error here. *)
Definition vec_read (v : list T) (k : Z) : res T :=
  if 0 <=? k then
    match get v k with
    | Some a => Ok a
    | None => Err OutOfBounds
    end
  else Err OutOfBounds.

(** Lines 109-112: zero out everything below the first subdiagonal.
<<
    for (idx_t i = 0; i < n; i++)
        if (i != 0)
            for (idx_t j = 0; j < i - 1; j++)
                U(i,j) = zeroT;
>> *)
Definition zero_row_below (i : Z) (U : matrix T) : res (matrix T) :=
  for_loop (Z.to_nat (idx_sub i 1)) 0 (idx_sub i 1)
    (fun j U => write U i j rzero) U.

Definition zero_below_subdiagonal (n : Z) (U : matrix T) : res (matrix T) :=
  for_loop (Z.to_nat n) 0 n
    (fun i U => if negb (i =? 0) then zero_row_below i U else Ok U) U.

(** Lines 115-125: clear the subdiagonal between the blocks that [wi]
    shows.
<<
    for (k = 0; k < n-1; k++) {
        if (wi[k] == real_t(0)) {
            U(k+1,k) = zeroT;
        } else if (k < n-2){
            U(k+2,k+1) = zeroT;
            k++;
        }
    }
>> *)
Fixpoint zero_between_blocks (fuel : nat) (k n : Z) (wi : list T)
  (U : matrix T) : res (matrix T) :=
  if k <? idx_sub n 1 then
    match fuel with
    | O => Err NoTermination
    | S fuel' =>
        try w <- vec_read wi k ;
        if reqb w rzero then
          try U' <- write U (idx_add k 1) k rzero ;
          zero_between_blocks fuel' (idx_succ k) n wi U'
        else if k <? idx_sub n 2 then
          try U' <- write U (idx_add k 2) (idx_add k 1) rzero ;
          zero_between_blocks fuel' (idx_succ (idx_succ k)) n wi U'
        else zero_between_blocks fuel' (idx_succ k) n wi U
    end
  else Ok U.

Definition separate_blocks (n : Z) (wi : list T) (U : matrix T)
  : res (matrix T) :=
  zero_between_blocks (Z.to_nat (idx_sub n 1)) 0 n wi U.

(** Lines 131-145: the complex eigenvectors, a complex number being its
    real and imaginary part.
<<
    for (idx_t j = 0; j < n; j++) {
        for (idx_t i = 0; i < n; i++) {
            if (wi[j] == zeroT)
                Zc(i,j) = std::complex<real_t>(Z(i,j), 0);
            else if (wi[j] > zeroT)
                Zc(i,j) = std::complex<real_t>(Z(i,j), Z(i,j + 1));
            else
                Zc(i,j) = std::complex<real_t>(Z(i,j - 1), -Z(i,j));
        }
    }
>> *)
Definition complex_entry (wi : list T) (Zm : matrix T) (i j : Z)
  : res (T * T) :=
  try w <- vec_read wi j ;
  if reqb w rzero then
    try a <- read Zm i j ;
    Ok (a, rzero)
  else if rltb rzero w then
    try a <- read Zm i j ;
    try b <- read Zm i (idx_add j 1) ;
    Ok (a, b)
  else
    try a <- read Zm i (idx_sub j 1) ;
    try b <- read Zm i j ;
    Ok (a, ropp b).

Definition complex_eigenvectors (n : Z) (wi : list T) (Zm : matrix T)
  (Zc : matrix (T * T)) : res (matrix (T * T)) :=
  for_loop (Z.to_nat n) 0 n
    (fun j Zc =>
       for_loop (Z.to_nat n) 0 n
         (fun i Zc =>
            try c <- complex_entry wi Zm i j ;
            write Zc i j c) Zc) Zc.

(** [U'] is [U] with some entries of the first subdiagonal set to zero. *)
Definition subdiagonal_zeroed (U U' : matrix T) : Prop :=
  nrows U' = nrows U /\ ncols U' = ncols U
  /\ forall i j, entry U' i j = entry U i j
                 \/ (i = j + 1 /\ entry U' i j = rzero).

(** The complex conjugate. *)
Definition cconj (c : T * T) : T * T := (fst c, ropp (snd c)).

(** What column [j] of [Zc] is built from: the sign of [wi[j]] as the
    code tests it. *)
Definition wi_zero (wi : list T) (j : Z) : Prop :=
  exists w, get wi j = Some w /\ reqb w rzero = true.
Definition wi_positive (wi : list T) (j : Z) : Prop :=
  exists w, get wi j = Some w /\ reqb w rzero = false /\ rltb rzero w = true.
Definition wi_negative (wi : list T) (j : Z) : Prop :=
  exists w, get wi j = Some w /\ reqb w rzero = false /\ rltb rzero w = false.

End TestCode.

#[export] Instance Q_eq : RealEq Q := { reqb := Qeq_bool }.

(** A Schur form with a 2x2 block in rows 0, 1, its [wi], and a [Z]. *)
Definition wi3 : list Q := [2; -2; 0]%Q.

Definition full3 : matrix Q :=
  of_rows 3 [[1; -5; 2]; [1; 3; 1]; [7; 4; 6]]%Q.

Definition zc0 : matrix (Q * Q) := mkMatrix 3 3 (fun _ _ => (0, 0)%Q).

(** An eigenvalue array with a positive imaginary part in the last row. *)
Definition wi_bad : list Q := [0; 0; 2]%Q.

(** The matrix the exceptional shift leaves of [sample3]. *)
Definition shifted3 : matrix Q :=
  out_matrix (hqr_formshift 0 sample3 10 5 2 0 shift0).

(** Two runs of the driver: on a matrix in real Schur form, and on one
    that the idle sweep never deflates. *)
Definition schur3_run : outcome :=
  hqr find_zero_subdiagonal idle_sweep budget_30 schur3 0 2
    [0; 0; 0]%Q [0; 0; 0]%Q None.

Definition sample3_run : outcome :=
  hqr find_zero_subdiagonal idle_sweep budget_30 sample3 0 2
    [7; 7; 7]%Q [8; 8; 8]%Q None.

(** The scalars an ordinary call leaves. *)
Definition ordinary_out : shift Q :=
  out_shift (hqr_formshift 0 sample3 3 5 2 0 shift0).

Definition final_state (o : outcome) : hqr_state (T:=Q) :=
  match o with
  | Success st => st
  | NonConvergence _ st => st
  | _ => mkState schur3 None [] [] shift0 0 0 0 []
  end.

(** * Properties of [hqr_formshift] *)

Section FormshiftFacts.

Context {T : Type} `{RealType T}.

Implicit Types (A : matrix T) (st : shift T).

Lemma idx_sub_exact a b : 0 <= a - b < idx_modulus -> idx_sub a b = a - b.
Proof. intros Hab. unfold idx_sub, idx_wrap. now apply Z.mod_small. Qed.

Lemma idx_succ_exact i : 0 <= i -> i + 1 < idx_modulus -> idx_succ i = i + 1.
Proof. intros. unfold idx_succ, idx_wrap. apply Z.mod_small. lia. Qed.

Lemma in_range_spec A i j :
  in_range A i j = true <-> 0 <= i < nrows A /\ 0 <= j < ncols A.
Proof. unfold in_range. rewrite !andb_true_iff. lia. Qed.

Lemma read_ok A i j :
  0 <= i < nrows A -> 0 <= j < ncols A -> read A i j = Ok (entry A i j).
Proof.
  intros Hi Hj. unfold read.
  now rewrite (proj2 (in_range_spec A i j) (conj Hi Hj)).
Qed.

Lemma read_inv A i j v :
  read A i j = Ok v -> v = entry A i j /\ 0 <= i < nrows A /\ 0 <= j < ncols A.
Proof.
  unfold read. destruct (in_range A i j) eqn:E; [|discriminate].
  intros [= <-]. split; [reflexivity|]. now apply in_range_spec.
Qed.

Lemma write_inv A i j v A' :
  write A i j v = Ok A' ->
  nrows A' = nrows A /\ ncols A' = ncols A /\
  0 <= i < nrows A /\ 0 <= j < ncols A /\
  forall r c, entry A' r c = if (r =? i) && (c =? j) then v else entry A r c.
Proof.
  unfold write. destruct (in_range A i j) eqn:E; [|discriminate].
  intros [= <-]. apply in_range_spec in E. cbn. tauto.
Qed.

Lemma write_ok A i j v :
  0 <= i < nrows A -> 0 <= j < ncols A -> exists A', write A i j v = Ok A'.
Proof.
  intros Hi Hj. unfold write.
  rewrite (proj2 (in_range_spec A i j) (conj Hi Hj)). eauto.
Qed.

(** What the exceptional-shift loop leaves, when it ends. *)
Lemma shift_diagonal_inv fuel : forall i en xv A A',
  en + 1 < idx_modulus ->
  shift_diagonal fuel i en xv A = Ok A' ->
  nrows A' = nrows A /\ ncols A' = ncols A /\
  forall r c,
    entry A' r c =
    if (r =? c) && (i <=? r) && (r <=? en)
    then rsub (entry A r r) xv else entry A r c.
Proof.
  induction fuel as [|fuel IH]; intros i en xv A A' Hen; cbn.
  - destruct (i <=? en) eqn:Hle; [discriminate|].
    intros [= <-]. repeat split. intros r c.
    destruct (r =? c) eqn:?, (i <=? r) eqn:?, (r <=? en) eqn:?; cbn; try reflexivity.
    lia.
  - destruct (i <=? en) eqn:Hle.
    + destruct (read A i i) as [a|] eqn:Hr; [cbn|discriminate].
      destruct (write A i i (rsub a xv)) as [A1|] eqn:Hw; [cbn|discriminate].
      apply read_inv in Hr as (-> & Hi & _).
      apply write_inv in Hw as (Hn1 & Hc1 & _ & _ & He1).
      rewrite idx_succ_exact by lia.
      intros Hrec. apply IH in Hrec as (Hn & Hc & He); [|assumption].
      split; [congruence|]. split; [congruence|].
      intros r c. rewrite He, !He1.
      destruct (Z.eqb_spec r c), (Z.leb_spec (i + 1) r), (Z.leb_spec i r),
        (Z.leb_spec r en), (Z.eqb_spec r i), (Z.eqb_spec c i);
        cbn; subst; try reflexivity; lia.
    + intros [= <-]. repeat split. intros r c.
      destruct (r =? c) eqn:?, (i <=? r) eqn:?, (r <=? en) eqn:?; cbn; try reflexivity.
      lia.
Qed.

(** The loop ends when the rows [i .. en] are rows of the matrix. *)
Lemma shift_diagonal_total fuel : forall i en xv A,
  0 <= i -> en < nrows A -> en < ncols A -> en + 1 < idx_modulus ->
  (Z.to_nat (en + 1 - i) <= fuel)%nat ->
  exists A', shift_diagonal fuel i en xv A = Ok A'.
Proof.
  induction fuel as [|fuel IH]; intros i en xv A Hi Hr Hc Hen Hfuel; cbn.
  - destruct (i <=? en) eqn:Hle; [lia|eauto].
  - destruct (i <=? en) eqn:Hle; [|eauto].
    rewrite read_ok by lia. cbn.
    destruct (write_ok A i i (rsub (entry A i i) xv)) as [A1 Hw]; [lia..|].
    rewrite Hw. cbn. apply write_inv in Hw as (Hn1 & Hc1 & _).
    rewrite idx_succ_exact by lia.
    apply IH; lia.
Qed.

Lemma square_check A : ncols A = nrows A -> negb (ncols A =? nrows A) = false.
Proof. intros ->. now rewrite Z.eqb_refl. Qed.

(** The statuses the routine can return, and when: a successful call has
    read [A(en,en)]; it returns 1 exactly when [l == en]; otherwise it has
    read the trailing 2x2 block, and returns 2 exactly when [l == en - 1],
    then 3 exactly when [itn == 0], and 0 otherwise. *)
Lemma formshift_status low A its itn en l st status A' st' :
  hqr_formshift low A its itn en l st = Ok (status, A', st') ->
  (status = 1 /\ l = en)
  \/ (status = 2 /\ l <> en /\ l = idx_sub en 1)
  \/ (status = 3 /\ l <> en /\ l <> idx_sub en 1 /\ itn = 0)
  \/ (status = 0 /\ l <> en /\ l <> idx_sub en 1 /\ itn <> 0).
Proof.
  unfold hqr_formshift.
  destruct (negb (ncols A =? nrows A)); [discriminate|].
  destruct (read A en en) as [x0|]; [cbn|discriminate].
  destruct (Z.eqb_spec l en) as [->|Hl]; [intros [= <- _ _]; tauto|].
  destruct (read A (idx_sub en 1) (idx_sub en 1)) as [y0|]; [cbn|discriminate].
  destruct (read A en (idx_sub en 1)) as [a|]; [cbn|discriminate].
  destruct (read A (idx_sub en 1) en) as [b|]; [cbn|discriminate].
  destruct (Z.eqb_spec l (idx_sub en 1)) as [->|Hl1]; [intros [= <- _ _]; tauto|].
  destruct (Z.eqb_spec itn 0) as [->|Hitn]; [intros [= <- _ _]; tauto|].
  destruct (negb (its =? 10) && negb (itn =? 20)); [intros [= <- _ _]; tauto|].
  destruct (shift_diagonal _ _ _ _ _) as [A1|]; [cbn|discriminate].
  destruct (read A1 en (idx_sub en 1)) as [c|]; [cbn|discriminate].
  destruct (read A1 (idx_sub en 1) (idx_sub en 2)) as [d|]; [cbn|discriminate].
  intros [= <- _ _]. tauto.
Qed.

(** The four ways out of the routine, each as an equation. *)

Lemma formshift_size1 low A its itn en st :
  ncols A = nrows A -> 0 <= en < ncols A ->
  hqr_formshift low A its itn en en st
  = Ok (1, A, mkShift (sh_s st) (sh_t st) (entry A en en) (sh_y st) (sh_w st)).
Proof.
  intros Hsq Hen. unfold hqr_formshift.
  rewrite square_check by assumption.
  rewrite read_ok by lia. cbn. now rewrite Z.eqb_refl.
Qed.

Lemma formshift_size2 low A its itn en l st :
  valid_call A low en l -> l = en - 1 ->
  hqr_formshift low A its itn en l st
  = Ok (2, A, mkShift (sh_s st) (sh_t st) (entry A en en)
                (entry A (en - 1) (en - 1))
                (rmul (entry A en (en - 1)) (entry A (en - 1) en))).
Proof.
  intros (Hsq & Hn & Hlow & Hl & Hen) ->. unfold hqr_formshift.
  rewrite square_check by assumption.
  rewrite idx_sub_exact by lia.
  rewrite !read_ok by lia. cbn.
  destruct (Z.eqb_spec (en - 1) en) as [E|_]; [lia|].
  now rewrite Z.eqb_refl.
Qed.

Lemma formshift_exhausted low A its en l st :
  valid_call A low en l -> l < en - 1 ->
  hqr_formshift low A its 0 en l st
  = Ok (3, A, mkShift (sh_s st) (sh_t st) (entry A en en)
                (entry A (en - 1) (en - 1))
                (rmul (entry A en (en - 1)) (entry A (en - 1) en))).
Proof.
  intros (Hsq & Hn & Hlow & Hl & Hen) Hlt. unfold hqr_formshift.
  rewrite square_check by assumption.
  rewrite idx_sub_exact by lia.
  rewrite !read_ok by lia. cbn.
  destruct (Z.eqb_spec l en) as [E|_]; [lia|].
  destruct (Z.eqb_spec l (en - 1)) as [E|_]; [lia|].
  reflexivity.
Qed.

Lemma formshift_ordinary low A its itn en l st :
  valid_call A low en l -> l < en - 1 -> itn <> 0 ->
  its <> 10 -> itn <> 20 ->
  hqr_formshift low A its itn en l st
  = Ok (0, A, mkShift (sh_s st) (sh_t st) (entry A en en)
                (entry A (en - 1) (en - 1))
                (rmul (entry A en (en - 1)) (entry A (en - 1) en))).
Proof.
  intros (Hsq & Hn & Hlow & Hl & Hen) Hlt Hitn Hits Hitn20.
  unfold hqr_formshift.
  rewrite square_check by assumption.
  rewrite idx_sub_exact by lia.
  rewrite !read_ok by lia. cbn.
  destruct (Z.eqb_spec l en) as [E|_]; [lia|].
  destruct (Z.eqb_spec l (en - 1)) as [E|_]; [lia|].
  destruct (Z.eqb_spec itn 0) as [E|_]; [lia|].
  destruct (Z.eqb_spec its 10) as [E|_]; [lia|].
  destruct (Z.eqb_spec itn 20) as [E|_]; [lia|].
  reflexivity.
Qed.

Lemma formshift_exceptional low A its itn en l st :
  valid_call A low en l -> l < en - 1 -> itn <> 0 ->
  its = 10 \/ itn = 20 ->
  let x0 := entry A en en in
  let s' := radd (rabs (entry A en (en - 1))) (rabs (entry A (en - 1) (en - 2))) in
  exists A',
    hqr_formshift low A its itn en l st
    = Ok (0, A', mkShift s' (radd (sh_t st) x0)
                   (rmul (rlit 0.75) s') (rmul (rlit 0.75) s')
                   (rmul (rmul (ropp (rlit 0.4375)) s') s'))
    /\ nrows A' = nrows A /\ ncols A' = ncols A
    /\ forall r c,
         entry A' r c =
         if (r =? c) && (low <=? r) && (r <=? en)
         then rsub (entry A r r) x0 else entry A r c.
Proof.
  intros (Hsq & Hn & Hlow & Hl & Hen) Hlt Hitn Hexc x0 s'.
  destruct (shift_diagonal_total (Z.to_nat (en + 1 - low)) low en x0 A)
    as [A' HA']; [lia..|].
  assert (Hwrap : en + 1 < idx_modulus) by lia.
  destruct (shift_diagonal_inv _ _ _ _ _ _ Hwrap HA') as (Hr & Hc & He).
  exists A'. split; [|auto].
  unfold hqr_formshift.
  rewrite square_check by assumption.
  rewrite !idx_sub_exact by lia.
  rewrite !(read_ok A) by lia. cbn.
  destruct (Z.eqb_spec l en) as [E|_]; [lia|].
  destruct (Z.eqb_spec l (en - 1)) as [E|_]; [lia|].
  destruct (Z.eqb_spec itn 0) as [E|_]; [lia|].
  replace (negb (its =? 10) && negb (itn =? 20)) with false
    by (destruct (Z.eqb_spec its 10), (Z.eqb_spec itn 20); cbn; try reflexivity; lia).
  fold x0. rewrite HA'. cbn.
  rewrite !read_ok by lia. cbn.
  rewrite !He.
  destruct (Z.eqb_spec en (en - 1)) as [E|_]; [lia|].
  destruct (Z.eqb_spec (en - 1) (en - 2)) as [E|_]; [lia|].
  reflexivity.
Qed.

(** C1: with a window of size 1 ([l == en]) the routine returns status 1
    and leaves [A(en,en)] in [x], whatever [its] and [itn] are. *)
Theorem formshift_window_of_one low A its itn en l st :
  ncols A = nrows A -> 0 <= en < ncols A -> l = en ->
  exists A' st',
    hqr_formshift low A its itn en l st = Ok (1, A', st')
    /\ sh_x st' = entry A en en.
Proof.
  intros Hsq Hen ->. rewrite formshift_size1 by assumption.
  eexists _, _. split; reflexivity.
Qed.

(** C4: with a window of size 2 ([l == en - 1]) the routine returns status
    2 with [x = A(en,en)], [y = A(en-1,en-1)] and
    [w = A(en,en-1) * A(en-1,en)]. *)
Theorem formshift_window_of_two low A its itn en l st :
  valid_call A low en l -> l = en - 1 ->
  exists A' st',
    hqr_formshift low A its itn en l st = Ok (2, A', st')
    /\ sh_x st' = entry A en en
    /\ sh_y st' = entry A (en - 1) (en - 1)
    /\ sh_w st' = rmul (entry A en (en - 1)) (entry A (en - 1) en).
Proof.
  intros Hv Hl. rewrite formshift_size2 by assumption.
  eexists _, _. repeat split; reflexivity.
Qed.

(** C3: the deflation tests come before the budget test: with [itn == 0] a
    window of size 1 still gives status 1 and a window of size 2 still
    gives status 2; a call that returns 3 has neither [l == en] nor
    [l == en - 1], so with [l] in the window ([l <= en]) it has
    [l < en - 1]. *)
Theorem formshift_deflation_before_budget low A its itn en l st :
  valid_call A low en l -> itn = 0 ->
  (l = en ->
     exists A' st', hqr_formshift low A its itn en l st = Ok (1, A', st'))
  /\ (l = en - 1 ->
     exists A' st', hqr_formshift low A its itn en l st = Ok (2, A', st'))
  /\ (forall A' st',
     hqr_formshift low A its itn en l st = Ok (3, A', st') ->
     l <> en /\ l <> en - 1 /\ (l <= en -> l < en - 1)).
Proof.
  intros Hv ->. split; [|split].
  - intros ->. destruct Hv as (Hsq & _ & _ & _ & Hen).
    rewrite formshift_size1 by assumption. eauto.
  - intros Hl. rewrite formshift_size2 by assumption. eauto.
  - intros A' st' E.
    destruct Hv as (Hsq & Hn & Hlow & Hl & Hen).
    apply formshift_status in E
      as [(E & _)|[(E & _)|[(_ & Hne & Hne1 & _)|(E & _)]]]; try discriminate.
    assert (en = 0 \/ 1 <= en) as [->|Hpos] by lia.
    + lia.
    + rewrite idx_sub_exact in Hne1 by lia. lia.
Qed.

(** C2: without deflation ([l < en - 1]) and with budget left ([itn > 0])
    the routine returns 0, and it applies the exceptional shift exactly
    when [its == 10] or [itn == 20]: then [t] grows by [x = A(en,en)], each
    [A(i,i)] with [low <= i <= en] drops by that [x] (nothing else in [A]
    changes), [s = |A(en,en-1)| + |A(en-1,en-2)|], [x = y = 0.75 s] and
    [w = -0.4375 s s]; otherwise [A], [s] and [t] are as they were and
    [x], [y], [w] describe the trailing block. *)
Theorem formshift_exceptional_shift low A its itn en l st :
  valid_call A low en l -> l < en - 1 -> 0 < itn ->
  let x0 := entry A en en in
  let s' := radd (rabs (entry A en (en - 1))) (rabs (entry A (en - 1) (en - 2))) in
  (its = 10 \/ itn = 20 ->
     exists A' st',
       hqr_formshift low A its itn en l st = Ok (0, A', st')
       /\ sh_t st' = radd (sh_t st) x0
       /\ (forall i, low <= i <= en -> entry A' i i = rsub (entry A i i) x0)
       /\ (forall i j, i <> j \/ i < low \/ en < i -> entry A' i j = entry A i j)
       /\ nrows A' = nrows A /\ ncols A' = ncols A
       /\ sh_s st' = s'
       /\ sh_x st' = rmul (rlit 0.75) s'
       /\ sh_y st' = rmul (rlit 0.75) s'
       /\ sh_w st' = rmul (rmul (ropp (rlit 0.4375)) s') s')
  /\ (~ (its = 10 \/ itn = 20) ->
     exists st',
       hqr_formshift low A its itn en l st = Ok (0, A, st')
       /\ sh_s st' = sh_s st /\ sh_t st' = sh_t st
       /\ sh_x st' = x0
       /\ sh_y st' = entry A (en - 1) (en - 1)
       /\ sh_w st' = rmul (entry A en (en - 1)) (entry A (en - 1) en)).
Proof.
  intros Hv Hlt Hitn x0 s'. split.
  - intros Hexc.
    destruct (formshift_exceptional low A its itn en l st Hv Hlt ltac:(lia) Hexc)
      as (A' & E & Hr & Hc & He).
    exists A'. eexists. split; [exact E|]. cbn.
    repeat split; try assumption; try reflexivity.
    + intros i Hi. rewrite He.
      destruct (Z.eqb_spec i i), (Z.leb_spec low i), (Z.leb_spec i en);
        cbn; try reflexivity; lia.
    + intros i j Hij. rewrite He.
      destruct (Z.eqb_spec i j), (Z.leb_spec low i), (Z.leb_spec i en);
        cbn; try reflexivity; lia.
  - intros Hno. rewrite formshift_ordinary by (assumption || lia).
    eexists. repeat split; reflexivity.
Qed.

(** C5: without deflation ([l < en - 1]) the routine returns, and its
    status is 3 exactly when [itn == 0]; no call returns 3 with budget
    left. *)
Theorem formshift_status3_iff_exhausted low A its itn en l st :
  valid_call A low en l -> l < en - 1 ->
  (exists status A' st',
     hqr_formshift low A its itn en l st = Ok (status, A', st')
     /\ (status = 3 <-> itn = 0))
  /\ (forall low0 A0 its0 itn0 en0 l0 st0 A' st',
        hqr_formshift low0 A0 its0 itn0 en0 l0 st0 = Ok (3, A', st') ->
        itn0 = 0).
Proof.
  intros Hv Hlt. split.
  - destruct (Z.eq_dec itn 0) as [->|Hitn].
    + rewrite formshift_exhausted by assumption.
      eexists _, _, _. split; [reflexivity|tauto].
    + destruct (Z.eq_dec its 10) as [Hits|Hits];
        [|destruct (Z.eq_dec itn 20) as [H20|H20]].
      * destruct (formshift_exceptional low A its itn en l st Hv Hlt Hitn
                    (or_introl Hits)) as (A' & E & _).
        eexists _, _, _. split; [exact E|]. split; [discriminate|contradiction].
      * destruct (formshift_exceptional low A its itn en l st Hv Hlt Hitn
                    (or_intror H20)) as (A' & E & _).
        eexists _, _, _. split; [exact E|]. split; [discriminate|contradiction].
      * rewrite formshift_ordinary by assumption.
        eexists _, _, _. split; [reflexivity|].
        split; [discriminate|contradiction].
  - intros low0 A0 its0 itn0 en0 l0 st0 A' st' E.
    apply formshift_status in E
      as [(E & _)|[(E & _)|[(_ & _ & _ & E)|(E & _)]]];
      try discriminate; assumption.
Qed.

(** What a call does to the matrix. *)
Lemma formshift_matrix_inv low A its itn en l st status A' st' :
  ncols A < idx_modulus ->
  hqr_formshift low A its itn en l st = Ok (status, A', st') ->
  (status <> 0 \/ (its <> 10 /\ itn <> 20) -> A' = A)
  /\ nrows A' = nrows A /\ ncols A' = ncols A
  /\ (forall i j, i <> j \/ i < low \/ en < i -> entry A' i j = entry A i j)
  /\ (status = 0 -> its = 10 \/ itn = 20 ->
      forall i, low <= i <= en ->
        entry A' i i = rsub (entry A i i) (entry A en en)).
Proof.
  intros Hn. unfold hqr_formshift.
  destruct (negb (ncols A =? nrows A)); [discriminate|].
  destruct (read A en en) as [x0|] eqn:Hx; [cbn|discriminate].
  apply read_inv in Hx as (-> & _ & Hen).
  destruct (Z.eqb_spec l en) as [->|Hl].
  { intros [= <- <- _]. repeat split; try reflexivity; intros; discriminate. }
  destruct (read A (idx_sub en 1) (idx_sub en 1)) as [y0|]; [cbn|discriminate].
  destruct (read A en (idx_sub en 1)) as [a|]; [cbn|discriminate].
  destruct (read A (idx_sub en 1) en) as [b|]; [cbn|discriminate].
  destruct (Z.eqb_spec l (idx_sub en 1)) as [->|Hl1].
  { intros [= <- <- _]. repeat split; try reflexivity; intros; discriminate. }
  destruct (Z.eqb_spec itn 0) as [->|Hitn].
  { intros [= <- <- _]. repeat split; try reflexivity; intros; discriminate. }
  destruct (Z.eqb_spec its 10) as [Hits|Hits], (Z.eqb_spec itn 20) as [H20|H20];
    cbn.
  4: { intros [= <- <- _]. repeat split; try reflexivity. intros _ [?|?]; lia. }
  all: destruct (shift_diagonal _ _ _ _ _) as [A1|] eqn:HA1; [cbn|discriminate];
    destruct (read A1 en (idx_sub en 1)) as [c|]; [cbn|discriminate];
    destruct (read A1 (idx_sub en 1) (idx_sub en 2)) as [d|]; [cbn|discriminate];
    intros [= <- <- _];
    assert (Hwrap : en + 1 < idx_modulus) by lia;
    destruct (shift_diagonal_inv _ _ _ _ _ _ Hwrap HA1) as (Hr & Hc & He);
    (split; [intros [?|[? ?]]; lia|]);
    (split; [exact Hr|]); (split; [exact Hc|]);
    (split; [|intros _ _]); intros i; intros; rewrite He;
    destruct (Z.eqb_spec i i), (Z.leb_spec low i), (Z.leb_spec i en);
    try destruct (Z.eqb_spec i j);
    cbn; try reflexivity; lia.
Qed.

(** The routine returns on every call of the driver. *)
Lemma formshift_total low A its itn en l st :
  valid_call A low en l -> l <= en ->
  exists status A' st', hqr_formshift low A its itn en l st = Ok (status, A', st').
Proof.
  intros Hv Hl.
  destruct (Z.eq_dec l en) as [->|Hne].
  { destruct Hv as (Hsq & _ & _ & _ & Hen).
    rewrite formshift_size1 by assumption. eauto. }
  destruct (Z.eq_dec l (en - 1)) as [Hl1|Hne1].
  { rewrite formshift_size2 by assumption. eauto. }
  assert (Hlt : l < en - 1) by lia.
  destruct (Z.eq_dec itn 0) as [->|Hitn].
  { rewrite formshift_exhausted by assumption. eauto. }
  destruct (Z.eq_dec its 10) as [Hits|Hits].
  { destruct (formshift_exceptional low A its itn en l st Hv Hlt Hitn
                (or_introl Hits)) as (A' & E & _). eauto. }
  destruct (Z.eq_dec itn 20) as [H20|H20].
  { destruct (formshift_exceptional low A its itn en l st Hv Hlt Hitn
                (or_intror H20)) as (A' & E & _). eauto. }
  rewrite formshift_ordinary by assumption. eauto.
Qed.

(** C6, as the code has it: the routine leaves [A] as it found it on every
    return but the exceptional shift (status 0 with [its == 10] or
    [itn == 20]); there the shape and every entry off the diagonal or
    outside rows [low .. en] are kept, and each [A(i,i)] with
    [low <= i <= en] drops by [A(en,en)]. *)
Theorem formshift_matrix_frame low A its itn en l st status A' st' :
  ncols A < idx_modulus ->
  hqr_formshift low A its itn en l st = Ok (status, A', st') ->
  (status <> 0 \/ (its <> 10 /\ itn <> 20) -> A' = A)
  /\ nrows A' = nrows A /\ ncols A' = ncols A
  /\ (forall i j, i <> j \/ i < low \/ en < i -> entry A' i j = entry A i j)
  /\ (status = 0 -> its = 10 \/ itn = 20 ->
      forall i, low <= i <= en ->
        entry A' i i = rsub (entry A i i) (entry A en en)).
Proof. apply formshift_matrix_inv. Qed.

(** C10: with [l == en] the routine returns 1 having written [x] only:
    [s], [t], [y], [w] and [A] are as they were, and neither the status nor
    [x] nor [A] depends on the scalars it was given. *)
Theorem formshift_size_one_frame low A its itn en st :
  ncols A = nrows A -> 0 <= en < ncols A ->
  exists st',
    hqr_formshift low A its itn en en st = Ok (1, A, st')
    /\ sh_x st' = entry A en en
    /\ sh_s st' = sh_s st /\ sh_t st' = sh_t st
    /\ sh_y st' = sh_y st /\ sh_w st' = sh_w st
    /\ forall st2, exists st2',
         hqr_formshift low A its itn en en st2 = Ok (1, A, st2')
         /\ sh_x st2' = sh_x st'.
Proof.
  intros Hsq Hen. eexists. split; [now apply formshift_size1|].
  cbn. repeat split.
  intros st2. eexists. split; [now apply formshift_size1|reflexivity].
Qed.

End FormshiftFacts.

(** * Properties of the driver *)

Section DriverFacts.

Context {T : Type} `{RealLaws T}.

Variable find_deflation_row : matrix T -> Z -> Z -> Z.
Variable QRStepEngine :
  Z -> Z -> matrix T -> T -> T -> T -> option (matrix T) ->
  matrix T * option (matrix T).
Variable iteration_budget : Z -> Z.

(** The deflation scan answers with a row of the window. *)
Hypothesis find_in_window : forall A low en,
  low <= en -> low <= find_deflation_row A low en <= en.

Implicit Types (wr wi : list T) (st : hqr_state (T:=T)).

Lemma get_put_eq wr k a :
  0 <= k < Z.of_nat (length wr) -> get (put wr k a) k = Some a.
Proof. intros Hk. unfold get, put. apply list_lookup_insert_eq. lia. Qed.

Lemma get_put_ne wr k j a :
  0 <= k -> 0 <= j -> k <> j -> get (put wr k a) j = get wr j.
Proof. intros Hk Hj Hne. unfold get, put. apply list_lookup_insert_ne. lia. Qed.

Lemma length_put wr k a : length (put wr k a) = length wr.
Proof. unfold put. apply length_insert. Qed.

Lemma real_row_put wi j a k :
  0 <= j -> 0 <= k -> j <> k -> real_row wi k -> real_row (put wi j a) k.
Proof. intros Hj Hk Hne. unfold real_row. now rewrite get_put_ne. Qed.

Lemma conj_pair_put wr wi j a b k :
  0 <= j -> 0 <= k -> j <> k -> j <> k + 1 ->
  conj_pair wr wi k -> conj_pair (put wr j a) (put wi j b) k.
Proof.
  intros Hj Hk Hne Hne1 (re & re' & im & im' & H1 & H2 & H3 & H4 & Hrest).
  exists re, re', im, im'. rewrite !get_put_ne by lia. tauto.
Qed.

(** Writing a row at or below [lo] keeps the rows above it deflated. *)
Lemma deflated_put wr wi lo hi j a b :
  0 <= j <= lo -> deflated wr wi lo hi ->
  deflated (put wr j a) (put wi j b) lo hi.
Proof.
  intros Hj Hd k Hk. destruct (Hd k Hk) as [Hr|[(Hk1 & Hp)|(Hk1 & Hp)]].
  - left. apply real_row_put; [lia..|assumption].
  - right. left. split; [assumption|]. apply conj_pair_put; [lia..|assumption].
  - right. right. split; [assumption|]. apply conj_pair_put; [lia..|assumption].
Qed.

Lemma deflated_extend_real wr wi lo hi :
  real_row wi lo -> deflated wr wi lo hi -> deflated wr wi (lo - 1) hi.
Proof.
  intros Hr Hd k Hk. destruct (Z.eq_dec k lo) as [->|Hne]; [now left|].
  destruct (Hd k ltac:(lia)) as [?|[?|(Hk1 & Hp)]]; [tauto|tauto|].
  right. right. split; [lia|assumption].
Qed.

Lemma deflated_extend_pair wr wi lo hi :
  lo <= hi -> conj_pair wr wi (lo - 1) -> deflated wr wi lo hi ->
  deflated wr wi (lo - 2) hi.
Proof.
  intros Hlo Hp Hd k Hk.
  destruct (Z.eq_dec k (lo - 1)) as [->|Hne1].
  { right. left. split; [lia|assumption]. }
  destruct (Z.eq_dec k lo) as [->|Hne].
  { right. right. split; [lia|assumption]. }
  destruct (Hd k ltac:(lia)) as [?|[?|(Hk1 & Hp')]]; [tauto|tauto|].
  right. right. split; [lia|assumption].
Qed.

(** Recording a real eigenvalue at [en] deflates row [en]. *)
Lemma record_real_deflated wr wi en hi n x wr' wi' :
  0 <= en <= hi -> hi < n ->
  Z.of_nat (length wr) = n -> Z.of_nat (length wi) = n ->
  deflated wr wi en hi ->
  record_real wr wi en x = (wr', wi') ->
  deflated wr' wi' (en - 1) hi.
Proof.
  intros Hen Hhi Hlr Hli Hd [= <- <-].
  apply deflated_extend_real.
  - unfold real_row. apply get_put_eq. lia.
  - apply deflated_put; [lia|assumption].
Qed.

(** Resolving the block at rows [en-1], [en] deflates both rows. *)
Lemma resolve_2x2_deflated wr wi en hi n x y w wr' wi' :
  1 <= en <= hi -> hi < n ->
  Z.of_nat (length wr) = n -> Z.of_nat (length wi) = n ->
  deflated wr wi en hi ->
  resolve_2x2 wr wi en x y w = (wr', wi') ->
  deflated wr' wi' (en - 2) hi.
Proof.
  intros Hen Hhi Hlr Hli Hd. unfold resolve_2x2.
  destruct (rltb _ rzero) eqn:Hneg; intros [= <- <-].
  - apply deflated_extend_pair; [lia| |].
    + unfold conj_pair. replace (en - 1 + 1) with en by lia.
      rewrite !(get_put_ne _ en (en - 1)) by lia.
      rewrite !get_put_eq by (rewrite ?length_put; lia).
      eexists _, _, _, _.
      repeat split; try reflexivity.
      * now rewrite ropp_involutive.
      * intros E. pose proof (rsqrt_pos _ Hneg) as Hpos.
        unfold rzero in E. rewrite E in Hpos.
        now rewrite rltb_irrefl in Hpos.
      * apply rsqrt_pos. exact Hneg.
    + apply deflated_put; [lia|]. apply deflated_put; [lia|]. assumption.
  - replace (en - 2) with (en - 1 - 1) by lia.
    apply deflated_extend_real.
    + unfold real_row. rewrite get_put_ne by lia.
      apply get_put_eq. lia.
    + apply deflated_extend_real.
      * unfold real_row. apply get_put_eq. rewrite length_put. lia.
      * apply deflated_put; [lia|]. apply deflated_put; [lia|]. assumption.
Qed.

(** The inner loop keeps the invariant: it leaves by [break] with the
    window bottom one or two rows lower, or with the budget spent at the
    row it was working on. *)
Lemma hqr_inner_invariant fuel : forall low high n wr0 wi0 st,
  hqr_invariant low high n wr0 wi0 st -> low <= h_en st ->
  match hqr_inner find_deflation_row QRStepEngine fuel low st with
  | Break st' =>
      h_en st' < h_en st /\ hqr_invariant low high n wr0 wi0 st'
  | Abort (NonConvergence en st') =>
      en = h_en st /\ h_en st' = en /\ h_itn st' = 0
      /\ hqr_invariant low high n wr0 wi0 st'
  | Abort (Success _) | Abort Rejected => False
  | Abort (Fault _) | Abort OutOfFuel => True
  end.
Proof.
  induction fuel as [|fuel IH]; intros low high n wr0 wi0 st Hinv Hge;
    cbn [hqr_inner]; [exact I|].
  destruct (hqr_formshift _ _ _ _ _ _ _) as [[[status A'] sh']|e] eqn:E;
    [|exact I].
  pose proof (find_in_window (h_A st) low (h_en st) Hge) as Hl.
  destruct Hinv as (Hlow & Hhi & Hn & Hen & Hlr & Hli & Hd & Hfr).
  apply formshift_status in E
    as [(-> & El)|[(-> & Hne & El)|[(-> & Hne & Hne1 & Eitn)|(-> & Hne & Hne1 & Eitn)]]];
    cbn [Z.eqb Pos.eqb].
  - (* one real eigenvalue *)
    destruct (record_real _ _ _ _) as [wr' wi'] eqn:Er.
    unfold hqr_invariant; cbn.
    assert (Hd' : deflated wr' wi' (h_en st - 1) high)
      by (apply (record_real_deflated (h_wr st) (h_wi st) (h_en st) high n
                   (sh_x sh') wr' wi'); [lia|assumption..]).
    injection Er as <- <-. rewrite !length_put.
    repeat split; try lia; try assumption.
    all: rewrite get_put_ne by lia; apply Hfr; lia.
  - (* a 2x2 block *)
    rewrite idx_sub_exact in El by lia.
    destruct (resolve_2x2 _ _ _ _ _ _) as [wr' wi'] eqn:Er.
    unfold hqr_invariant; cbn.
    assert (Hd' : deflated wr' wi' (h_en st - 2) high)
      by (apply (resolve_2x2_deflated (h_wr st) (h_wi st) (h_en st) high n
                   (sh_x sh') (sh_y sh') (sh_w sh') wr' wi');
          [lia|assumption..]).
    unfold resolve_2x2 in Er.
    destruct (rltb _ rzero); injection Er as <- <-; rewrite !length_put;
      (repeat split; try lia; try assumption);
      rewrite !get_put_ne by lia; apply Hfr; lia.
  - (* budget spent *)
    unfold hqr_invariant; cbn. repeat split; try lia; try assumption.
    all: apply Hfr; lia.
  - (* another sweep *)
    destruct (QRStepEngine _ _ _ _ _ _ _) as [A'' Z'].
    refine (IH low high n wr0 wi0 (mkState A'' Z' _ _ sh' _ _ _ _) _ Hge).
    unfold hqr_invariant; cbn. repeat split; try lia; try assumption.
    all: apply Hfr; lia.
Qed.

(** The driver's loop keeps the invariant; it ends, if it does, with the
    window empty or with the budget spent at a row of it. *)
Lemma hqr_outer_invariant fuel : forall low high n wr0 wi0 st,
  hqr_invariant low high n wr0 wi0 st ->
  match hqr_outer find_deflation_row QRStepEngine fuel low st with
  | Success st' =>
      h_en st' = low - 1 /\ hqr_invariant low high n wr0 wi0 st'
  | NonConvergence en st' =>
      low <= en /\ h_en st' = en /\ h_itn st' = 0
      /\ hqr_invariant low high n wr0 wi0 st'
  | _ => True
  end.
Proof.
  induction fuel as [|fuel IH]; intros low high n wr0 wi0 st Hinv;
    cbn [hqr_outer]; destruct (Z.ltb_spec (h_en st) low) as [Hlt|Hge].
  - split; [|assumption]. unfold hqr_invariant in Hinv. lia.
  - exact I.
  - split; [|assumption]. unfold hqr_invariant in Hinv. lia.
  - set (st0 := mkState _ _ _ _ _ _ 0 _ _).
    assert (Hinv0 : hqr_invariant low high n wr0 wi0 st0) by exact Hinv.
    pose proof (hqr_inner_invariant (Z.to_nat (h_itn st + 1))
                  low high n wr0 wi0 st0 Hinv0 Hge) as Hin.
    destruct (hqr_inner _ _ _ _ st0) as [st'|o].
    + apply IH. tauto.
    + destruct o; try exact I; try contradiction.
      destruct Hin as (-> & Hen' & Hitn & Hinv'). cbn. tauto.
Qed.

(** The arrays [hqr] starts from satisfy the invariant. *)
Lemma hqr_initial_invariant A low high wr wi Zm sh its itn log :
  hqr_preconditions A low high wr wi Zm = true ->
  hqr_invariant low high (ncols A) wr wi
    (mkState A Zm wr wi sh high its itn log).
Proof.
  unfold hqr_preconditions. rewrite !andb_true_iff.
  intros (((((((Hsq & Hn) & Hlr) & Hli) & _) & Hlow) & Hlh) & Hhn).
  unfold hqr_invariant; cbn. repeat split; try lia.
  intros k Hk. lia.
Qed.

(** What a deflating or failing return of the shift policy holds. *)
Lemma formshift_block_inv low A its itn en l sh status A' sh' :
  hqr_formshift low A its itn en l sh = Ok (status, A', sh') ->
  status <> 0 ->
  A' = A /\ sh_x sh' = entry A en en
  /\ (status <> 1 ->
      sh_y sh' = entry A (idx_sub en 1) (idx_sub en 1)
      /\ sh_w sh' = rmul (entry A en (idx_sub en 1)) (entry A (idx_sub en 1) en)).
Proof.
  unfold hqr_formshift.
  destruct (negb (ncols A =? nrows A)); [discriminate|].
  destruct (read A en en) as [x0|] eqn:Hx; [cbn|discriminate].
  apply read_inv in Hx as (-> & _).
  destruct (l =? en).
  { intros [= <- <- <-] _. cbn. tauto. }
  destruct (read A (idx_sub en 1) (idx_sub en 1)) as [y0|] eqn:Hy;
    [cbn|discriminate].
  destruct (read A en (idx_sub en 1)) as [a|] eqn:Ha; [cbn|discriminate].
  destruct (read A (idx_sub en 1) en) as [b|] eqn:Hb; [cbn|discriminate].
  apply read_inv in Hy as (-> & _). apply read_inv in Ha as (-> & _).
  apply read_inv in Hb as (-> & _).
  destruct (l =? idx_sub en 1).
  { intros [= <- <- <-] _. cbn. tauto. }
  destruct (itn =? 0).
  { intros [= <- <- <-] _. cbn. tauto. }
  destruct (negb (its =? 10) && negb (itn =? 20)).
  { intros [= <- <- <-] Hs. contradiction. }
  destruct (shift_diagonal _ _ _ _ _) as [A1|]; [cbn|discriminate].
  destruct (read A1 en (idx_sub en 1)) as [c|]; [cbn|discriminate].
  destruct (read A1 (idx_sub en 1) (idx_sub en 2)) as [d|]; [cbn|discriminate].
  intros [= <- <- <-] Hs. contradiction.
Qed.

(** Writing a row above which a block lies keeps the block reported. *)
Lemma block_reported_put low wr wi j a c b :
  0 <= j < block_top b ->
  block_reported find_deflation_row low wr wi b ->
  block_reported find_deflation_row low (put wr j a) (put wi j c) b.
Proof.
  destruct b as [en A|en A]; cbn [block_top block_reported]; intros Hj.
  - intros (Hf & Hw & Hr). split; [assumption|]. split.
    + rewrite get_put_ne by lia. assumption.
    + apply real_row_put; [lia..|assumption].
  - intros (Hf & Hv). split; [assumption|]. cbv zeta in Hv |- *.
    destruct (rltb _ rzero).
    + destruct Hv as (H1 & H2 & H3 & H4 & Hp).
      rewrite !get_put_ne by lia.
      repeat split; try assumption.
      apply conj_pair_put; [lia..|assumption].
    + destruct Hv as (H1 & H2 & H3 & H4).
      rewrite !get_put_ne by lia.
      repeat split; try assumption; apply real_row_put; (lia || assumption).
Qed.

(** What resolving the block at rows [en-1], [en] writes. *)
Lemma resolve_2x2_reported wr wi en n A low wr' wi' :
  1 <= en < n ->
  Z.of_nat (length wr) = n -> Z.of_nat (length wi) = n ->
  find_deflation_row A low en = en - 1 ->
  resolve_2x2 wr wi en (entry A en en) (entry A (en - 1) (en - 1))
    (rmul (entry A en (en - 1)) (entry A (en - 1) en)) = (wr', wi') ->
  block_reported find_deflation_row low wr' wi' (Block2 en A).
Proof.
  intros Hen Hlr Hli Hf. unfold resolve_2x2. cbn [block_reported].
  split; [assumption|]. cbv zeta.
  destruct (rltb _ rzero) eqn:Hneg; injection H1 as <- <-.
  - rewrite !(get_put_ne _ en (en - 1)) by lia.
    rewrite !get_put_eq by (rewrite ?length_put; lia).
    repeat split.
    unfold conj_pair. replace (en - 1 + 1) with en by lia.
    rewrite !(get_put_ne _ en (en - 1)) by lia.
    rewrite !get_put_eq by (rewrite ?length_put; lia).
    eexists _, _, _, _. repeat split; try reflexivity.
    + now rewrite ropp_involutive.
    + intros E. pose proof (rsqrt_pos _ Hneg) as Hpos.
      unfold rzero in E. rewrite E in Hpos.
      now rewrite rltb_irrefl in Hpos.
    + apply rsqrt_pos. exact Hneg.
  - unfold real_row.
    rewrite !(get_put_ne _ en (en - 1)) by lia.
    rewrite !get_put_eq by (rewrite ?length_put; lia).
    repeat split.
Qed.

(** The inner loop keeps the log: a [break] adds the block the scan had
    isolated, reported; a failure is at a row the scan did not isolate. *)
Lemma hqr_inner_log fuel : forall low high n wr0 wi0 st,
  hqr_invariant low high n wr0 wi0 st ->
  hqr_log_invariant find_deflation_row low high st ->
  low <= h_en st ->
  match hqr_inner find_deflation_row QRStepEngine fuel low st with
  | Break st' => hqr_log_invariant find_deflation_row low high st'
  | Abort (NonConvergence en st') =>
      hqr_log_invariant find_deflation_row low high st'
      /\ find_deflation_row (h_A st') low en < en - 1
  | Abort _ => True
  end.
Proof.
  induction fuel as [|fuel IH]; intros low high n wr0 wi0 st Hinv Hlog Hge;
    cbn [hqr_inner]; [exact I|].
  destruct (hqr_formshift _ _ _ _ _ _ _) as [[[status A'] sh']|e] eqn:E;
    [|exact I].
  pose proof (find_in_window (h_A st) low (h_en st) Hge) as Hl.
  pose proof Hinv as (Hlow & Hhi & Hn & Hen & Hlr & Hli & Hd & Hfr).
  destruct Hlog as (Hcov & Hblk).
  pose proof (formshift_block_inv _ _ _ _ _ _ _ _ _ _ E) as Hret.
  apply formshift_status in E
    as [(-> & El)|[(-> & Hne & El)|[(-> & Hne & Hne1 & Eitn)|(-> & Hne & Hne1 & Eitn)]]];
    cbn [Z.eqb Pos.eqb].
  - (* one real eigenvalue *)
    destruct (Hret ltac:(discriminate)) as (-> & Hx & _).
    cbn [record_real]. split; cbn [h_en h_log h_wr h_wi].
    + intros k Hk. destruct (Z.eq_dec k (h_en st)) as [->|Hne].
      * eexists. split; [left; reflexivity|]. unfold block_covers; cbn. lia.
      * destruct (Hcov k ltac:(lia)) as (b & Hb & Hc). exists b.
        split; [right; assumption|assumption].
    + intros b [<-|Hb].
      * cbn [block_top block_bottom block_reported].
        split; [lia|]. split; [lia|]. split; [lia|].
        split; [assumption|]. rewrite Hx. split.
        -- apply get_put_eq. lia.
        -- unfold real_row. apply get_put_eq. lia.
      * destruct (Hblk b Hb) as (Ht & Hlo & Hbo & Hrep).
        split; [lia|]. split; [lia|]. split; [lia|].
        apply block_reported_put; [lia|assumption].
  - (* a 2x2 block *)
    destruct (Hret ltac:(discriminate)) as (-> & Hx & Hyw).
    destruct (Hyw ltac:(discriminate)) as (Hy & Hw).
    rewrite idx_sub_exact in El, Hy, Hw by lia.
    rewrite Hx, Hy, Hw.
    destruct (resolve_2x2 _ _ _ _ _ _) as [wr' wi'] eqn:Er.
    pose proof (resolve_2x2_reported (h_wr st) (h_wi st) (h_en st) n (h_A st) low
                  wr' wi' ltac:(lia) Hlr Hli El Er) as Hnew.
    split; cbn [h_en h_log h_wr h_wi].
    + intros k Hk.
      destruct (Z_le_gt_dec k (h_en st)) as [Hle|Hgt].
      * eexists. split; [left; reflexivity|]. unfold block_covers; cbn. lia.
      * destruct (Hcov k ltac:(lia)) as (b & Hb & Hc). exists b.
        split; [right; assumption|assumption].
    + intros b [<-|Hb].
      * cbn [block_top block_bottom].
        split; [lia|]. split; [lia|]. split; [lia|]. assumption.
      * destruct (Hblk b Hb) as (Ht & Hlo & Hbo & Hrep).
        split; [lia|]. split; [lia|]. split; [lia|].
        unfold resolve_2x2 in Er.
        destruct (rltb _ rzero); injection Er as <- <-;
          (apply block_reported_put; [lia|]);
          (apply block_reported_put; [lia|assumption]).
  - (* budget spent *)
    destruct (Hret ltac:(discriminate)) as (-> & _).
    cbn [h_A]. split; [split; assumption|].
    assert (1 <= h_en st) by lia.
    rewrite idx_sub_exact in Hne1 by lia. lia.
  - (* another sweep *)
    destruct (QRStepEngine _ _ _ _ _ _ _) as [A'' Z'].
    refine (IH low high n wr0 wi0 (mkState A'' Z' _ _ sh' _ _ _ _) _ _ Hge).
    + unfold hqr_invariant; cbn. repeat split; try lia; try assumption.
      all: apply Hfr; lia.
    + split; assumption.
Qed.

(** The driver's loop keeps the log. *)
Lemma hqr_outer_log fuel : forall low high n wr0 wi0 st,
  hqr_invariant low high n wr0 wi0 st ->
  hqr_log_invariant find_deflation_row low high st ->
  match hqr_outer find_deflation_row QRStepEngine fuel low st with
  | Success st' => hqr_log_invariant find_deflation_row low high st'
  | NonConvergence en st' =>
      hqr_log_invariant find_deflation_row low high st'
      /\ find_deflation_row (h_A st') low en < en - 1
  | _ => True
  end.
Proof.
  induction fuel as [|fuel IH]; intros low high n wr0 wi0 st Hinv Hlog;
    cbn [hqr_outer]; destruct (Z.ltb_spec (h_en st) low) as [Hlt|Hge];
    try assumption; try exact I.
  set (st0 := mkState _ _ _ _ _ _ 0 _ _).
  assert (Hinv0 : hqr_invariant low high n wr0 wi0 st0) by exact Hinv.
  assert (Hlog0 : hqr_log_invariant find_deflation_row low high st0)
    by exact Hlog.
  pose proof (hqr_inner_invariant (Z.to_nat (h_itn st + 1))
                low high n wr0 wi0 st0 Hinv0 Hge) as Hin.
  pose proof (hqr_inner_log (Z.to_nat (h_itn st + 1))
                low high n wr0 wi0 st0 Hinv0 Hlog0 Hge) as Hin'.
  destruct (hqr_inner _ _ _ _ st0) as [st'|o].
  - apply (IH low high n wr0 wi0); tauto.
  - destruct o; try exact I; try contradiction. exact Hin'.
Qed.

(** The log [hqr] starts from. *)
Lemma hqr_initial_log low high (st : hqr_state) :
  h_en st = high -> h_log st = [] ->
  hqr_log_invariant find_deflation_row low high st.
Proof.
  intros Hen Hlog. split.
  - intros k Hk. lia.
  - intros b Hb. rewrite Hlog in Hb. destruct Hb.
Qed.

(** C7: when [hqr] succeeds, the rows of the window are the rows of the
    blocks it deflated, and the arrays hold each block as sections 4.1
    and 4.3 say.  A row the scan isolated alone ([l == en]) holds the real
    eigenvalue [A(en,en)], with [wi] zero.  Two rows the scan isolated
    together ([l == en - 1]) whose discriminant is negative hold a
    complex-conjugate pair: [wr[k] = wr[k+1] = (x+y)/2],
    [wi[k] = sqrt(-discriminant)], [wi[k] = -wi[k+1]] and [wi[k]] is not
    zero; with any other discriminant they hold two real eigenvalues,
    both [wi] zero.  So every row of the window has [wi] zero or is one of
    the two rows of a conjugate pair. *)
Theorem hqr_success_conjugate_pairs A low high wr wi Zm st :
  hqr find_deflation_row QRStepEngine iteration_budget A low high wr wi Zm
  = Success st ->
  (forall k, low <= k <= high ->
     exists b, In b (h_log st) /\ block_covers b k)
  /\ (forall b, In b (h_log st) ->
        low <= block_top b /\ block_bottom b <= high
        /\ block_reported find_deflation_row low (h_wr st) (h_wi st) b)
  /\ (forall k, low <= k <= high ->
        real_row (h_wi st) k
        \/ (k + 1 <= high /\ conj_pair (h_wr st) (h_wi st) k)
        \/ (low <= k - 1 /\ conj_pair (h_wr st) (h_wi st) (k - 1))).
Proof.
  unfold hqr. destruct (hqr_preconditions _ _ _ _ _ _) eqn:Hpre; [|discriminate].
  intros Hrun.
  set (st0 := mkState _ _ _ _ _ _ 0 _ _) in Hrun.
  pose proof (hqr_initial_invariant A low high wr wi Zm
                (mkShift rzero rzero rzero rzero rzero) 0
                (iteration_budget (ncols A)) [] Hpre) as Hinv.
  fold st0 in Hinv.
  pose proof (hqr_outer_invariant (Z.to_nat (high - low + 1))
                low high (ncols A) wr wi st0 Hinv) as Hloop.
  pose proof (hqr_outer_log (Z.to_nat (high - low + 1))
                low high (ncols A) wr wi st0 Hinv
                (hqr_initial_log low high st0 eq_refl eq_refl)) as Hlog.
  rewrite Hrun in Hloop, Hlog. destruct Hloop as (Hen & Hinv').
  destruct Hlog as (Hcov & Hblk).
  destruct Hinv' as (_ & _ & _ & _ & _ & _ & Hd & _).
  rewrite Hen in Hd, Hcov.
  split; [|split].
  - intros k Hk. apply Hcov. lia.
  - intros b Hb. destruct (Hblk b Hb) as (_ & ? & ? & ?). tauto.
  - intros k Hk.
    destruct (Hd k ltac:(lia)) as [?|[?|(? & ?)]]; [tauto|tauto|].
    right. right. split; [lia|assumption].
Qed.

(** A sweep keeps the shape of [A]; the budget is not negative. *)
Hypothesis sweep_keeps_shape : forall l en A x y w Zm,
  nrows (fst (QRStepEngine l en A x y w Zm)) = nrows A
  /\ ncols (fst (QRStepEngine l en A x y w Zm)) = ncols A.
Hypothesis budget_nonneg : forall n, 0 <= n -> 0 <= iteration_budget n.

(** The inner loop ends within its budget: by [break], with the window
    bottom at most two rows lower and not below [low - 1], or in
    non-convergence. *)
Lemma hqr_inner_total fuel : forall low high n st,
  0 <= low -> high < n -> n < idx_modulus ->
  low <= h_en st <= high ->
  hqr_measure n st -> h_itn st < Z.of_nat fuel ->
  (exists st',
     hqr_inner find_deflation_row QRStepEngine fuel low st = Break st'
     /\ low - 1 <= h_en st' /\ hqr_measure n st')
  \/ (exists en st',
        hqr_inner find_deflation_row QRStepEngine fuel low st
        = Abort (NonConvergence en st')).
Proof.
  induction fuel as [|fuel IH];
    intros low high n st Hlow Hhi Hn Hen (Hc & Hr & Hitn) Hfuel;
    cbn [hqr_inner]; [lia|].
  pose proof (find_in_window (h_A st) low (h_en st) (proj1 Hen)) as Hl.
  assert (Hv : valid_call (h_A st) low (h_en st)
                 (find_deflation_row (h_A st) low (h_en st)))
    by (unfold valid_call; lia).
  destruct (formshift_total low (h_A st) (h_its st) (h_itn st) (h_en st) _
              (h_sh st) Hv (proj2 Hl)) as (status & A' & sh' & E).
  rewrite E.
  assert (Hnm : ncols (h_A st) < idx_modulus) by lia.
  destruct (formshift_matrix_inv _ _ _ _ _ _ _ _ _ _ Hnm E)
    as (_ & Hr' & Hc' & _).
  apply formshift_status in E
    as [(-> & El)|[(-> & Hne & El)|[(-> & Hne & Hne1 & Eitn)|(-> & Hne & Hne1 & Eitn)]]];
    cbn [Z.eqb Pos.eqb].
  - destruct (record_real _ _ _ _) as [wr' wi'].
    left. eexists. split; [reflexivity|]. unfold hqr_measure; cbn. lia.
  - rewrite idx_sub_exact in El by lia.
    destruct (resolve_2x2 _ _ _ _ _ _) as [wr' wi'].
    left. eexists. split; [reflexivity|]. unfold hqr_measure; cbn. lia.
  - right. eauto.
  - destruct (sweep_keeps_shape (find_deflation_row (h_A st) low (h_en st))
                (h_en st) A' (sh_x sh') (sh_y sh') (sh_w sh') (h_Z st))
      as (Hr'' & Hc'').
    destruct (QRStepEngine _ _ _ _ _ _ _) as [A'' Z']. cbn in Hr'', Hc''.
    apply (IH low high n); try assumption; unfold hqr_measure; cbn; lia.
Qed.

(** The driver's loop ends, in success or in non-convergence. *)
Lemma hqr_outer_total fuel : forall low high n wr0 wi0 st,
  hqr_invariant low high n wr0 wi0 st ->
  hqr_measure n st -> h_en st - low + 1 <= Z.of_nat fuel ->
  (exists st', hqr_outer find_deflation_row QRStepEngine fuel low st = Success st')
  \/ (exists en st',
        hqr_outer find_deflation_row QRStepEngine fuel low st
        = NonConvergence en st').
Proof.
  induction fuel as [|fuel IH]; intros low high n wr0 wi0 st Hinv Hm Hfuel;
    cbn [hqr_outer]; destruct (Z.ltb_spec (h_en st) low) as [Hlt|Hge];
    [left; eauto | lia | left; eauto |].
  set (st0 := mkState _ _ _ _ _ _ 0 _ _).
  assert (Hinv0 : hqr_invariant low high n wr0 wi0 st0) by exact Hinv.
  assert (Hm0 : hqr_measure n st0) by exact Hm.
  pose proof (hqr_inner_invariant (Z.to_nat (h_itn st + 1))
                low high n wr0 wi0 st0 Hinv0 Hge) as Hin.
  destruct Hinv as (Hlow & Hhi & Hn & Hen & _).
  destruct Hm as (_ & _ & Hitn).
  destruct (hqr_inner_total (Z.to_nat (h_itn st + 1)) low high n st0)
    as [(st' & E & Hen' & Hm')|(en & st' & E)];
    try assumption; try (cbn; lia).
  - rewrite E in Hin |- *. destruct Hin as (Hlt' & Hinv').
    apply (IH low high n wr0 wi0); try assumption. cbn in Hlt'. lia.
  - rewrite E. right. eauto.
Qed.

(** C8: on arguments it accepts, [hqr] ends in one of two ways, and its
    return value is 0 exactly in the first.  In success every block in the
    log is reported.  In non-convergence the value returned is the
    (1-based) index of a row [en] of the window at which the budget ran
    out ([itn == 0]) with the scan isolating neither [en] nor [en-1, en];
    the rows above [en] are the rows of the blocks deflated before, each
    still reported in the arrays as when it was deflated, and the rows up
    to [en] of [wr], [wi] are as the caller passed them. *)
Theorem hqr_return_value A low high wr wi Zm :
  hqr_preconditions A low high wr wi Zm = true ->
  let r :=
    hqr find_deflation_row QRStepEngine iteration_budget A low high wr wi Zm in
  (return_value r = Some 0 <-> exists st, r = Success st)
  /\ ((exists st,
         r = Success st
         /\ forall b, In b (h_log st) ->
              block_reported find_deflation_row low (h_wr st) (h_wi st) b)
      \/ (exists en st,
            r = NonConvergence en st
            /\ return_value r = Some (en + 1)
            /\ low <= en <= high /\ h_itn st = 0
            /\ find_deflation_row (h_A st) low en < en - 1
            /\ (forall k, en < k <= high ->
                  exists b, In b (h_log st) /\ block_covers b k)
            /\ (forall b, In b (h_log st) ->
                  en < block_top b /\ block_bottom b <= high
                  /\ block_reported find_deflation_row low
                       (h_wr st) (h_wi st) b)
            /\ forall k, 0 <= k <= en ->
                 get (h_wr st) k = get wr k /\ get (h_wi st) k = get wi k)).
Proof.
  intros Hpre r. subst r. unfold hqr. rewrite Hpre.
  set (itn := iteration_budget (ncols A)).
  set (st0 := mkState A Zm wr wi (mkShift rzero rzero rzero rzero rzero)
                high 0 itn []).
  pose proof (hqr_initial_invariant A low high wr wi Zm
                (mkShift rzero rzero rzero rzero rzero) 0 itn [] Hpre) as Hinv.
  fold st0 in Hinv.
  pose proof (hqr_outer_invariant (Z.to_nat (high - low + 1))
                low high (ncols A) wr wi st0 Hinv) as Hloop.
  pose proof (hqr_outer_log (Z.to_nat (high - low + 1))
                low high (ncols A) wr wi st0 Hinv
                (hqr_initial_log low high st0 eq_refl eq_refl)) as Hlog.
  assert (Hshape : nrows A = ncols A /\ 0 <= low <= high /\ high < ncols A
                   /\ ncols A < idx_modulus).
  { revert Hpre. unfold hqr_preconditions. rewrite !andb_true_iff. lia. }
  assert (Hitn : 0 <= itn) by (apply budget_nonneg; lia).
  destruct (hqr_outer_total (Z.to_nat (high - low + 1))
              low high (ncols A) wr wi st0) as [(st' & E)|(en & st' & E)];
    try assumption; try (cbn; lia).
  { unfold hqr_measure; cbn. lia. }
  - rewrite E in Hlog |- *. split.
    + split; [eauto|reflexivity].
    + left. exists st'. split; [reflexivity|].
      intros b Hb. destruct Hlog as (_ & Hblk).
      destruct (Hblk b Hb) as (_ & _ & _ & ?). assumption.
  - rewrite E in Hloop, Hlog |- *.
    destruct Hloop as (Hlo & Hen & Hz & Hinv').
    destruct Hinv' as (_ & _ & _ & Hen' & _ & _ & _ & Hfr).
    destruct Hlog as ((Hcov & Hblk) & Hfind).
    rewrite Hen in *.
    split.
    + cbn. split; [intros [= ?]; lia|intros (st & [=])].
    + right. exists en, st'. split; [reflexivity|]. split; [reflexivity|].
      split; [lia|]. split; [assumption|]. split; [assumption|].
      split; [assumption|]. split.
      * intros b Hb. destruct (Hblk b Hb) as (? & ? & ? & ?). tauto.
      * intros k Hk. apply Hfr; lia.
Qed.

End DriverFacts.

(** ** The routine on sample inputs *)

Lemma sample3_valid l : 0 <= l -> valid_call sample3 0 2 l.
Proof. intros Hl. unfold valid_call, idx_modulus. cbn. lia. Defined.

Lemma formshift_window_of_one_witness :
  exists A' st',
    hqr_formshift 0 sample3 3 0 2 2 shift0 = Ok (1, A', st')
    /\ sh_x st' = 6%Q.
Proof.
  exact (formshift_window_of_one 0 sample3 3 0 2 2 shift0
           eq_refl ltac:(cbn; lia) eq_refl).
Defined.

Lemma formshift_window_of_two_witness :
  exists A' st',
    hqr_formshift 0 sample3 3 0 2 1 shift0 = Ok (2, A', st')
    /\ sh_x st' = 6%Q /\ sh_y st' = 5%Q /\ sh_w st' = (2 * 1)%Q.
Proof.
  exact (formshift_window_of_two 0 sample3 3 0 2 1 shift0
           (sample3_valid 1 ltac:(lia)) eq_refl).
Defined.

Lemma formshift_deflation_before_budget_witness :
  exists A' st', hqr_formshift 0 sample3 3 0 2 1 shift0 = Ok (2, A', st').
Proof.
  apply (formshift_deflation_before_budget 0 sample3 3 0 2 1 shift0);
    [apply sample3_valid; lia | reflexivity | reflexivity].
Defined.

(** The routine does not test [l <= en] itself: called with [itn == 0]
    and [l] above the window bottom it reports status 3 as well. *)
Example formshift_exhausted_above_window :
  exists st', hqr_formshift 0 sample3 3 0 1 2 shift0 = Ok (3, sample3, st').
Proof. eexists. reflexivity. Qed.

Lemma formshift_exceptional_shift_witness :
  exists A' st',
    hqr_formshift 0 sample3 10 5 2 0 shift0 = Ok (0, A', st')
    /\ sh_t st' = (8 + 6)%Q
    /\ (forall i, 0 <= i <= 2 -> entry A' i i = (entry sample3 i i - 6)%Q)
    /\ sh_s st' = (Qabs 2 + Qabs 3)%Q.
Proof.
  destruct (formshift_exceptional_shift 0 sample3 10 5 2 0 shift0
              (sample3_valid 0 ltac:(lia)) ltac:(lia) ltac:(lia))
    as [Hexc _].
  destruct (Hexc (or_introl eq_refl))
    as (A' & st' & E & Ht & Hd & _ & _ & _ & Hs & _).
  exists A', st'. repeat split; assumption.
Defined.

Lemma formshift_status3_iff_exhausted_witness :
  exists status A' st',
    hqr_formshift 0 sample3 3 0 2 0 shift0 = Ok (status, A', st')
    /\ (status = 3 <-> 0 = 0).
Proof.
  apply (formshift_status3_iff_exhausted 0 sample3 3 0 2 0 shift0);
    [apply sample3_valid; lia | lia].
Defined.

(** C6 as stated fails: the exceptional shift writes the diagonal of
    [A]. *)
Lemma formshift_changes_matrix :
  exists A' st',
    hqr_formshift 0 sample3 10 5 2 0 shift0 = Ok (0, A', st')
    /\ ~ (entry A' 0 0 == entry sample3 0 0)%Q
    /\ A' <> sample3.
Proof.
  eexists _, _. split; [reflexivity|]. split.
  - cbv. discriminate.
  - intros E. apply (f_equal (fun M => entry M 0 0)) in E.
    cbv in E. discriminate.
Qed.

Lemma formshift_matrix_frame_witness :
  ncols shifted3 = 3
  /\ entry shifted3 1 0 = entry sample3 1 0
  /\ entry shifted3 1 1 = (entry sample3 1 1 - entry sample3 2 2)%Q.
Proof.
  destruct (formshift_matrix_frame 0 sample3 10 5 2 0 shift0 0 shifted3
              (out_shift (hqr_formshift 0 sample3 10 5 2 0 shift0)))
    as (_ & _ & Hc & Hoff & Hdiag);
    [unfold idx_modulus; cbn; lia | reflexivity |].
  split; [exact Hc|]. split.
  - apply Hoff. left. lia.
  - apply (Hdiag eq_refl (or_introl eq_refl)). lia.
Defined.

Lemma formshift_size_one_frame_witness :
  exists st',
    hqr_formshift 0 sample3 3 0 2 2 shift0 = Ok (1, sample3, st')
    /\ sh_x st' = 6%Q
    /\ sh_s st' = 9%Q /\ sh_t st' = 8%Q /\ sh_y st' = 6%Q /\ sh_w st' = 5%Q.
Proof.
  destruct (formshift_size_one_frame 0 sample3 3 0 2 shift0)
    as (st' & E & Hx & Hs & Ht & Hy & Hw & _); [reflexivity | cbn; lia |].
  exists st'. repeat split; assumption.
Defined.

(** ** The driver on sample inputs *)

#[export] Instance Q_laws : RealLaws Q.
Proof.
  split.
  - intros [n d]. unfold ropp; cbn. unfold Qopp; cbn. f_equal. lia.
  - intros a. unfold rltb; cbn. unfold Qltb.
    replace (Qle_bool a a) with true; [reflexivity|].
    symmetry. apply Qle_bool_iff. apply Qle_refl.
  - intros [n d]. unfold rltb, rsqrt, ropp, rlit; cbn.
    unfold Qltb, Qle_bool, Qsqrt_down; cbn.
    rewrite !negb_true_iff, !Z.leb_gt. intros Hn.
    assert (0 < Z.sqrt (- n * Z.pos d)) by (apply Z.sqrt_pos; nia).
    lia.
Qed.

Lemma scan_up_in_window k : forall A low l,
  Z.of_nat k = l - low -> low <= scan_up k A l <= l.
Proof.
  induction k as [|k IH]; intros A low l Hk; cbn.
  - lia.
  - destruct (Qeq_bool _ 0); [lia|].
    specialize (IH A low (l - 1) ltac:(lia)). lia.
Qed.

Lemma find_zero_in_window (A : matrix Q) low en :
  low <= en -> low <= find_zero_subdiagonal A low en <= en.
Proof. intros Hle. unfold find_zero_subdiagonal. apply scan_up_in_window. lia. Qed.

Lemma idle_keeps_shape l en (A : matrix Q) x y w Zm :
  nrows (fst (idle_sweep l en A x y w Zm)) = nrows A
  /\ ncols (fst (idle_sweep l en A x y w Zm)) = ncols A.
Proof. split; reflexivity. Qed.

Lemma budget_30_nonneg n : 0 <= n -> 0 <= budget_30 n.
Proof. unfold budget_30. lia. Qed.

Lemma hqr_success_conjugate_pairs_witness :
  (forall k, 0 <= k <= 2 ->
     exists b, In b (h_log (final_state schur3_run)) /\ block_covers b k)
  /\ (forall b, In b (h_log (final_state schur3_run)) ->
        0 <= block_top b /\ block_bottom b <= 2
        /\ block_reported find_zero_subdiagonal 0
             (h_wr (final_state schur3_run)) (h_wi (final_state schur3_run)) b)
  /\ (forall k, 0 <= k <= 2 ->
        real_row (h_wi (final_state schur3_run)) k
        \/ (k + 1 <= 2
            /\ conj_pair (h_wr (final_state schur3_run))
                 (h_wi (final_state schur3_run)) k)
        \/ (0 <= k - 1
            /\ conj_pair (h_wr (final_state schur3_run))
                 (h_wi (final_state schur3_run)) (k - 1))).
Proof.
  exact (hqr_success_conjugate_pairs find_zero_subdiagonal idle_sweep budget_30
           find_zero_in_window schur3 0 2 [0; 0; 0]%Q [0; 0; 0]%Q None
           (final_state schur3_run) eq_refl).
Defined.

Lemma hqr_return_value_witness :
  (return_value sample3_run = Some 0 <-> exists st, sample3_run = Success st)
  /\ ((exists st,
         sample3_run = Success st
         /\ forall b, In b (h_log st) ->
              block_reported find_zero_subdiagonal 0 (h_wr st) (h_wi st) b)
      \/ (exists en st,
            sample3_run = NonConvergence en st
            /\ return_value sample3_run = Some (en + 1)
            /\ 0 <= en <= 2 /\ h_itn st = 0
            /\ find_zero_subdiagonal (h_A st) 0 en < en - 1
            /\ (forall k, en < k <= 2 ->
                  exists b, In b (h_log st) /\ block_covers b k)
            /\ (forall b, In b (h_log st) ->
                  en < block_top b /\ block_bottom b <= 2
                  /\ block_reported find_zero_subdiagonal 0
                       (h_wr st) (h_wi st) b)
            /\ forall k, 0 <= k <= en ->
                 get (h_wr st) k = get [7; 7; 7]%Q k
                 /\ get (h_wi st) k = get [8; 8; 8]%Q k)).
Proof.
  exact (hqr_return_value find_zero_subdiagonal idle_sweep budget_30
           find_zero_in_window idle_keeps_shape budget_30_nonneg
           sample3 0 2 [7; 7; 7]%Q [8; 8; 8]%Q None eq_refl).
Defined.

(** The two runs, evaluated. *)
Example schur3_run_arrays :
  return_value schur3_run = Some 0
  /\ map Qred (h_wr (final_state schur3_run)) = [2; 2; 6]%Q
  /\ map Qred (h_wi (final_state schur3_run)) = [2; -2; 0]%Q.
Proof. vm_compute. repeat split. Qed.

(** The pair [2 +- 2i] of [schur3] is reported in rows 0 and 1, from the
    block the scan isolated there. *)
Example schur3_run_blocks :
  map block_top (h_log (final_state schur3_run)) = [0; 2]
  /\ map block_bottom (h_log (final_state schur3_run)) = [1; 2]
  /\ map Qred (h_wi (final_state schur3_run)) = [2; -2; 0]%Q.
Proof. vm_compute. repeat split. Qed.

(** Reporting row 1 of [schur3] as a real eigenvalue of its own is not
    what the arrays may hold: the scan does not isolate it. *)
Example schur3_row_1_is_no_block wr wi :
  ~ block_reported find_zero_subdiagonal 0 wr wi (Real1 1 schur3).
Proof. intros (Hf & _). vm_compute in Hf. discriminate. Qed.

Example sample3_run_fails :
  return_value sample3_run = Some 3
  /\ h_wr (final_state sample3_run) = [7; 7; 7]%Q
  /\ h_itn (final_state sample3_run) = 0.
Proof. vm_compute. repeat split. Qed.

(** * More on [hqr_formshift] *)

Section FormshiftMore.

Context {T : Type} `{RealType T}.

Implicit Types (A : matrix T) (st : shift T).

Lemma read_err A i j :
  ~ (0 <= i < nrows A /\ 0 <= j < ncols A) -> read A i j = Err OutOfBounds.
Proof.
  intros Hout. unfold read. destruct (in_range A i j) eqn:E; [|reflexivity].
  apply in_range_spec in E. contradiction.
Qed.

Lemma idx_sub_below a b : 0 <= a < b -> b <= idx_modulus -> idx_sub a b = a - b + idx_modulus.
Proof.
  intros Ha Hb. unfold idx_sub, idx_wrap.
  symmetry. apply (Z.mod_unique _ _ (-1)); lia.
Qed.

(** X1: the status of a call that returns is read off [l], [en] and [itn]
    alone: 1 when [l == en]; otherwise 2 when [l == en - 1] (in index
    arithmetic); otherwise 3 when [itn == 0] and 0 when not.  [its], [low],
    the matrix and the incoming scalars have no say in it. *)
Theorem formshift_status_table low A its itn en l st status A' st' :
  hqr_formshift low A its itn en l st = Ok (status, A', st') ->
  (status = 1 <-> l = en)
  /\ (status = 2 <-> l <> en /\ l = idx_sub en 1)
  /\ (status = 3 <-> l <> en /\ l <> idx_sub en 1 /\ itn = 0)
  /\ (status = 0 <-> l <> en /\ l <> idx_sub en 1 /\ itn <> 0)
  /\ 0 <= status <= 3.
Proof.
  intros E. apply formshift_status in E.
  destruct E as [(-> & E)|[(-> & E1 & E2)|[(-> & E1 & E2 & E3)|(-> & E1 & E2 & E3)]]];
    repeat split; intros; try lia; try tauto; try discriminate.
Qed.

(** X2: the routine is a function of the window, not of the scalars it is
    handed: two calls that differ in the incoming [s], [t], [x], [y], [w]
    only fail alike or return the same status, the same matrix and the same
    [x]; they return the same [y] and [w] unless the status is 1 (which
    leaves both untouched), and [t] and [s] of the result depend on the
    incoming [t] and [s] only. *)
Theorem formshift_ignores_scalars low A its itn en l st1 st2 :
  match hqr_formshift low A its itn en l st1,
        hqr_formshift low A its itn en l st2 with
  | Ok (s1, A1, o1), Ok (s2, A2, o2) =>
      s1 = s2 /\ A1 = A2 /\ sh_x o1 = sh_x o2
      /\ (s1 <> 1 -> sh_y o1 = sh_y o2 /\ sh_w o1 = sh_w o2)
      /\ (sh_t st1 = sh_t st2 -> sh_t o1 = sh_t o2)
      /\ (sh_s st1 = sh_s st2 -> sh_s o1 = sh_s o2)
  | Err e1, Err e2 => e1 = e2
  | _, _ => False
  end.
Proof.
  unfold hqr_formshift.
  destruct (negb (ncols A =? nrows A)); [reflexivity|].
  destruct (read A en en) as [x0|]; [cbn|reflexivity].
  destruct (l =? en). { repeat split; tauto. }
  destruct (read A (idx_sub en 1) (idx_sub en 1)) as [y0|]; [cbn|reflexivity].
  destruct (read A en (idx_sub en 1)) as [a|]; [cbn|reflexivity].
  destruct (read A (idx_sub en 1) en) as [b|]; [cbn|reflexivity].
  destruct (l =? idx_sub en 1). { repeat split; tauto. }
  destruct (itn =? 0). { repeat split; tauto. }
  destruct (negb (its =? 10) && negb (itn =? 20)). { repeat split; tauto. }
  destruct (shift_diagonal _ _ _ _ _) as [A1|]; [cbn|reflexivity].
  destruct (read A1 en (idx_sub en 1)) as [c|]; [cbn|reflexivity].
  destruct (read A1 (idx_sub en 1) (idx_sub en 2)) as [d|]; [cbn|reflexivity].
  repeat split; try tauto. intros ->. reflexivity.
Qed.

(** X3: a return without exceptional shift is a fixed point: calling the
    routine again on the matrix and the scalars it left, with the same
    indices and counters, returns the same status, matrix and scalars. *)
Theorem formshift_idempotent low A its itn en l st status A' st' :
  hqr_formshift low A its itn en l st = Ok (status, A', st') ->
  status <> 0 \/ (its <> 10 /\ itn <> 20) ->
  hqr_formshift low A' its itn en l st' = Ok (status, A', st').
Proof.
  unfold hqr_formshift.
  destruct (negb (ncols A =? nrows A)) eqn:Hsq; [discriminate|].
  destruct (read A en en) as [x0|] eqn:Hx; [cbn [bind]|discriminate].
  destruct (l =? en) eqn:Hl.
  { intros [= <- <- <-] _. now rewrite Hsq, Hx. }
  destruct (read A (idx_sub en 1) (idx_sub en 1)) as [y0|] eqn:Hy;
    [cbn [bind]|discriminate].
  destruct (read A en (idx_sub en 1)) as [a|] eqn:Ha; [cbn [bind]|discriminate].
  destruct (read A (idx_sub en 1) en) as [b|] eqn:Hb; [cbn [bind]|discriminate].
  destruct (l =? idx_sub en 1) eqn:Hl1.
  { intros [= <- <- <-] _. rewrite Hsq, Hx. cbn [bind]. rewrite Hy.
    cbn [bind]. now rewrite Ha, Hb. }
  destruct (itn =? 0) eqn:Hitn.
  { intros [= <- <- <-] _. rewrite Hsq, Hx. cbn [bind]. rewrite Hy.
    cbn [bind]. now rewrite Ha, Hb. }
  destruct (negb (its =? 10) && negb (itn =? 20)) eqn:Hexc.
  { intros [= <- <- <-] _. rewrite Hsq, Hx. cbn [bind]. rewrite Hy.
    cbn [bind]. now rewrite Ha, Hb. }
  destruct (shift_diagonal _ _ _ _ _) as [A1|]; [cbn [bind]|discriminate].
  destruct (read A1 en (idx_sub en 1)) as [c|]; [cbn [bind]|discriminate].
  destruct (read A1 (idx_sub en 1) (idx_sub en 2)) as [d|];
    [cbn [bind]|discriminate].
  intros [= <- <- <-] [Hs|[Hits H20]]; [contradiction|].
  apply andb_false_iff in Hexc. rewrite !negb_false_iff, !Z.eqb_eq in Hexc. lia.
Qed.

(** X4: when the routine returns.  On a square matrix whose order is an
    index value, with [low], [en] indices, the call reads only entries of
    [A], and so returns, exactly when [en] is a row of [A] and either
    [l == en], or [en >= 1] and one of: [l == en - 1], [itn == 0], no
    exceptional shift is due, [en >= 2].  Otherwise it reads [A] outside
    its bounds (at the wrapped index [en - 1] or [en - 2], or at [en]). *)
Theorem formshift_returns_iff low A its itn en l st :
  ncols A = nrows A -> ncols A < idx_modulus -> 0 <= low -> 0 <= en ->
  (exists r, hqr_formshift low A its itn en l st = Ok r)
  <-> en < ncols A
      /\ (l = en
          \/ (1 <= en
              /\ (l = en - 1 \/ itn = 0 \/ (its <> 10 /\ itn <> 20) \/ 2 <= en))).
Proof.
  intros Hsq Hn Hlow Hen.
  assert (Hm : idx_modulus = 2 ^ 64) by reflexivity.
  unfold hqr_formshift. rewrite square_check by assumption.
  destruct (Z.lt_ge_cases en (ncols A)) as [Hin|Hout].
  2: { rewrite read_err by lia. cbn. split; [intros [r [=]]|lia]. }
  rewrite read_ok by lia. cbn.
  destruct (Z.eqb_spec l en) as [->|Hl]; [split; eauto|].
  destruct (Z.eq_dec en 0) as [->|Hen0].
  { rewrite (idx_sub_below 0 1) by lia.
    rewrite read_err by lia. cbn. split; [intros [r [=]]|lia]. }
  rewrite (idx_sub_exact en 1) by lia.
  rewrite !read_ok by lia. cbn.
  destruct (Z.eqb_spec l (en - 1)) as [Hl1|Hl1]; [split; [intros _; lia|eauto]|].
  destruct (Z.eqb_spec itn 0) as [Hitn|Hitn]; [split; [intros _; lia|eauto]|].
  destruct (Z.eqb_spec its 10) as [Hits|Hits], (Z.eqb_spec itn 20) as [H20|H20];
    cbn; try (split; [intros _; lia|eauto]).
  all: destruct (shift_diagonal_total (Z.to_nat (en + 1 - low)) low en
                   (entry A en en) A) as [A1 HA1]; [lia..|];
    rewrite HA1; cbn;
    assert (Hwrap : en + 1 < idx_modulus) by lia;
    destruct (shift_diagonal_inv _ _ _ _ _ _ Hwrap HA1) as (Hr1 & Hc1 & _);
    rewrite read_ok by lia; cbn;
    destruct (Z.eq_dec en 1) as [->|Hen1];
    [ rewrite (idx_sub_below 1 2) by lia;
      rewrite read_err by lia; cbn; split; [intros [r [=]]|lia]
    | rewrite (idx_sub_exact en 2) by lia;
      rewrite read_ok by lia; cbn; split; [intros _; lia|eauto] ].
Qed.

End FormshiftMore.

(** * Properties of the test's loops *)

Section LoopFacts.

Context {St : Type}.

Lemma idx_add_exact a b : 0 <= a + b < idx_modulus -> idx_add a b = a + b.
Proof. intros Hab. unfold idx_add, idx_wrap. now apply Z.mod_small. Qed.

(** A counted loop whose body keeps an invariant ends, with the invariant
    at the bound. *)
Lemma for_loop_rule (Inv : Z -> St -> Prop) (body : Z -> St -> res St) n :
  n < idx_modulus ->
  (forall i s, 0 <= i < n -> Inv i s ->
     exists s', body i s = Ok s' /\ Inv (i + 1) s') ->
  forall fuel i s,
    0 <= i <= n -> (Z.to_nat (n - i) <= fuel)%nat -> Inv i s ->
    exists s', for_loop fuel i n body s = Ok s' /\ Inv n s'.
Proof.
  intros Hn Hstep. induction fuel as [|fuel IH]; intros i s Hi Hfuel Hinv; cbn.
  - destruct (Z.ltb_spec i n); [lia|].
    replace n with i by lia. eauto.
  - destruct (Z.ltb_spec i n) as [Hlt|Hge].
    + destruct (Hstep i s ltac:(lia) Hinv) as (s' & -> & Hinv'). cbn.
      rewrite idx_succ_exact by lia. apply IH; [lia|lia|assumption].
    + replace n with i by lia. eauto.
Qed.

(** A counted loop one of whose turns always fails does not return. *)
Lemma for_loop_fail (body : Z -> St -> res St) n k :
  n < idx_modulus -> k < n ->
  (forall s, exists e, body k s = Err e) ->
  forall fuel i s, 0 <= i <= k ->
    exists e, for_loop fuel i n body s = Err e.
Proof.
  intros Hn Hk Hfail. induction fuel as [|fuel IH]; intros i s Hi; cbn;
    destruct (Z.ltb_spec i n) as [Hlt|Hge]; try lia; [eauto|].
  destruct (body i s) as [s'|e] eqn:E; cbn; [|eauto].
  destruct (Z.eq_dec i k) as [->|Hne].
  - destruct (Hfail s) as (e & He). congruence.
  - rewrite idx_succ_exact by lia. apply IH. lia.
Qed.

End LoopFacts.

Section TestFacts.

Context {T : Type} `{RealType T} `{RealEq T}.

Implicit Types (U V : matrix T) (wi : list T).

Lemma zero_row_below_spec n i U :
  nrows U = n -> ncols U = n -> n < idx_modulus -> 1 <= i < n ->
  exists U',
    zero_row_below i U = Ok U' /\ nrows U' = n /\ ncols U' = n
    /\ forall r c,
         entry U' r c =
         if (r =? i) && (0 <=? c) && (c <? i - 1) then rzero else entry U r c.
Proof.
  intros Hr Hc Hn Hi. unfold zero_row_below. rewrite idx_sub_exact by lia.
  apply (for_loop_rule
           (fun j V => nrows V = n /\ ncols V = n
              /\ forall r c,
                   entry V r c =
                   if (r =? i) && (0 <=? c) && (c <? j)
                   then rzero else entry U r c)); try lia.
  - intros j V Hj (Hr' & Hc' & He).
    destruct (write_ok V i j rzero) as [V' HV']; [lia..|].
    exists V'. split; [assumption|].
    apply write_inv in HV' as (Hr'' & Hc'' & _ & _ & He').
    split; [lia|]. split; [lia|].
    intros r c. rewrite He', He.
    destruct (Z.eqb_spec r i), (Z.eqb_spec c j), (Z.leb_spec 0 c),
      (Z.ltb_spec c j), (Z.ltb_spec c (j + 1)); cbn; try reflexivity; lia.
  - repeat split; try assumption. intros r c.
    destruct (Z.eqb_spec r i), (Z.leb_spec 0 c), (Z.ltb_spec c 0);
      cbn; try reflexivity; lia.
Qed.

(** X7: the first clean-up of the test puts a square matrix in upper
    Hessenberg form: it returns, keeps the shape, sets every entry below
    the first subdiagonal to zero and leaves every other entry as it
    was. *)
Theorem zero_below_subdiagonal_hessenberg n U :
  nrows U = n -> ncols U = n -> 0 <= n < idx_modulus ->
  exists U',
    zero_below_subdiagonal n U = Ok U' /\ nrows U' = n /\ ncols U' = n
    /\ forall i j,
         entry U' i j =
         if (0 <=? j) && (j + 1 <? i) && (i <? n) then rzero else entry U i j.
Proof.
  intros Hr Hc Hn. unfold zero_below_subdiagonal.
  apply (for_loop_rule
           (fun i V => nrows V = n /\ ncols V = n
              /\ forall r c,
                   entry V r c =
                   if (0 <=? c) && (c + 1 <? r) && (r <? i)
                   then rzero else entry U r c)); try lia.
  - intros i V Hi (Hr' & Hc' & He).
    destruct (Z.eqb_spec i 0) as [->|Hi0]; cbn.
    + exists V. split; [reflexivity|]. split; [lia|]. split; [lia|].
      intros r c. rewrite He.
      destruct (Z.leb_spec 0 c), (Z.ltb_spec (c + 1) r), (Z.ltb_spec r 0),
        (Z.ltb_spec r (0 + 1)); cbn; try reflexivity; lia.
    + destruct (zero_row_below_spec n i V Hr' Hc' ltac:(lia) ltac:(lia))
        as (V' & HV' & Hr'' & Hc'' & He').
      exists V'. split; [assumption|]. split; [lia|]. split; [lia|].
      intros r c. rewrite He', He.
      destruct (Z.eqb_spec r i), (Z.leb_spec 0 c), (Z.ltb_spec c (i - 1)),
        (Z.ltb_spec (c + 1) r), (Z.ltb_spec r i), (Z.ltb_spec r (i + 1));
        cbn; try reflexivity; lia.
  - repeat split; try assumption. intros r c.
    destruct (Z.leb_spec 0 c), (Z.ltb_spec (c + 1) r), (Z.ltb_spec r 0);
      cbn; try reflexivity; lia.
Qed.

Lemma vec_read_ok wi k w :
  0 <= k -> get wi k = Some w -> vec_read wi k = Ok w.
Proof.
  intros Hk Hw. unfold vec_read.
  destruct (Z.leb_spec 0 k); [|lia]. now rewrite Hw.
Qed.

Lemma get_in_range wi k :
  0 <= k < Z.of_nat (length wi) -> exists w, get wi k = Some w.
Proof.
  intros Hk. unfold get.
  destruct (lookup_lt_is_Some_2 wi (Z.to_nat k) ltac:(lia)) as [w Hw]. eauto.
Qed.

Lemma subdiagonal_zeroed_write U V V' k :
  subdiagonal_zeroed U V -> write V (k + 1) k rzero = Ok V' ->
  subdiagonal_zeroed U V'
  /\ entry V' (k + 1) k = rzero
  /\ forall r c, entry V r c = rzero -> entry V' r c = rzero.
Proof.
  intros (Hr & Hc & He) Hw.
  apply write_inv in Hw as (Hr' & Hc' & _ & _ & He').
  split; [|split].
  - split; [congruence|]. split; [congruence|].
    intros r c. rewrite He'.
    destruct (Z.eqb_spec r (k + 1)), (Z.eqb_spec c k); cbn;
      try apply He. right. split; [lia|reflexivity].
  - rewrite He'. now rewrite !Z.eqb_refl.
  - intros r c Hz. rewrite He'.
    destruct ((r =? k + 1) && (c =? k)); [reflexivity|assumption].
Qed.

(** The loop over [k], from any row it can reach. *)
Lemma zero_between_blocks_spec n wi U fuel :
  nrows U = n -> ncols U = n -> 1 <= n < idx_modulus ->
  Z.of_nat (length wi) = n ->
  forall k V,
    0 <= k <= n - 1 -> (Z.to_nat (n - 1 - k) <= fuel)%nat ->
    subdiagonal_zeroed U V ->
    (1 <= k -> entry V k (k - 1) = rzero) ->
    (forall j, 0 <= j -> j + 2 <= k ->
       entry V (j + 1) j = rzero \/ entry V (j + 2) (j + 1) = rzero) ->
    (forall j, 0 <= j < k -> wi_zero wi j -> entry V (j + 1) j = rzero) ->
    exists U',
      zero_between_blocks fuel k n wi V = Ok U'
      /\ subdiagonal_zeroed U U'
      /\ (forall j, 0 <= j -> j + 2 < n ->
            entry U' (j + 1) j = rzero \/ entry U' (j + 2) (j + 1) = rzero)
      /\ (forall j, 0 <= j < n - 1 -> wi_zero wi j ->
            entry U' (j + 1) j = rzero).
Proof.
  intros Hr Hc Hn Hlen.
  induction fuel as [|fuel IH]; intros k V Hk Hfuel Hsub Hprev Hpairs Hzero;
    cbn [zero_between_blocks]; rewrite (idx_sub_exact n 1) by lia;
    destruct (Z.ltb_spec k (n - 1)) as [Hlt|Hge]; try lia.
  1, 3: (exists V; repeat split; try apply Hsub;
         [intros j Hj Hj2; apply Hpairs; lia | intros j Hj; apply Hzero; lia]).
  destruct (get_in_range wi k ltac:(lia)) as [w Hw].
  rewrite (vec_read_ok wi k w) by (lia || assumption). cbn [bind].
  pose proof Hsub as (Hr' & Hc' & _).
  destruct (reqb w rzero) eqn:Hw0.
  - (* wi[k] == 0 *)
    rewrite (idx_add_exact k 1) by lia.
    destruct (write_ok V (k + 1) k rzero) as [V' HV']; [lia..|].
    rewrite HV'. cbn [bind]. rewrite idx_succ_exact by lia.
    destruct (subdiagonal_zeroed_write U V V' k Hsub HV') as (Hsub' & Hk' & Hkeep).
    apply IH; try assumption; try lia.
    + intros _. now replace (k + 1 - 1) with k by lia.
    + intros j Hj Hj2. destruct (Z.eq_dec (j + 2) (k + 1)) as [E|E].
      * right. replace (j + 2) with (k + 1) by lia.
        replace (j + 1) with k by lia. assumption.
      * destruct (Hpairs j Hj ltac:(lia)) as [Hz|Hz]; [left|right];
          now apply Hkeep.
    + intros j Hj Hwz. destruct (Z.eq_dec j k) as [->|E]; [assumption|].
      apply Hkeep. apply Hzero; [lia|assumption].
  - destruct (Z.eq_dec n 2) as [Hn2|Hn2].
    + (* n = 2: the loop bound [n - 2] is zero *)
      rewrite Hn2 in *. rewrite (idx_sub_exact 2 2) by lia.
      destruct (Z.ltb_spec k (2 - 2)); [lia|].
      rewrite idx_succ_exact by lia.
      destruct fuel as [|fuel']; cbn [zero_between_blocks];
        rewrite (idx_sub_exact 2 1) by lia;
        (destruct (Z.ltb_spec (k + 1) (2 - 1)); [lia|]);
        (exists V; repeat split; try apply Hsub;
         [intros j Hj Hj2; lia
         |intros j Hj (w' & Hw' & Hz'); replace j with k in Hw' by lia;
          congruence]).
    + rewrite (idx_sub_exact n 2) by lia.
      destruct (Z.ltb_spec k (n - 2)) as [Hlt2|Hge2].
      * (* a block of two rows *)
        rewrite (idx_add_exact k 2), (idx_add_exact k 1) by lia.
        destruct (write_ok V (k + 2) (k + 1) rzero) as [V' HV']; [lia..|].
        rewrite HV'. cbn [bind].
        rewrite (idx_succ_exact k), (idx_succ_exact (k + 1)) by lia.
        replace (k + 1 + 1) with (k + 2) by lia.
        replace (k + 2) with (k + 1 + 1) in HV' by lia.
        destruct (subdiagonal_zeroed_write U V V' (k + 1) Hsub HV')
          as (Hsub' & Hk' & Hkeep).
        replace (k + 1 + 1) with (k + 2) in * by lia.
        apply IH; try assumption; try lia.
        -- intros _. now replace (k + 2 - 1) with (k + 1) by lia.
        -- intros j Hj Hj2. destruct (Z.eq_dec j k) as [->|E].
           ++ right. assumption.
           ++ destruct (Z.eq_dec (j + 1) k) as [E1|E1].
              ** left. apply Hkeep. replace (j + 1) with k by lia.
                 replace j with (k - 1) by lia. apply Hprev. lia.
              ** destruct (Hpairs j Hj ltac:(lia)) as [Hz|Hz]; [left|right];
                   now apply Hkeep.
        -- intros j Hj (w' & Hw' & Hz').
           destruct (Z.eq_dec j (k + 1)) as [->|E].
           ++ now replace (k + 1 + 1) with (k + 2) by lia.
           ++ destruct (Z.eq_dec j k) as [->|E'].
              ** congruence.
              ** apply Hkeep. apply Hzero; [lia|exists w'; tauto].
      * (* the last row, nothing to clear *)
        rewrite idx_succ_exact by lia.
        destruct fuel as [|fuel']; cbn [zero_between_blocks];
          rewrite (idx_sub_exact n 1) by lia;
          (destruct (Z.ltb_spec (k + 1) (n - 1)); [lia|]);
          (exists V; repeat split; try apply Hsub;
           [intros j Hj Hj2; destruct (Z.eq_dec (j + 2) (k + 1)) as [E|E];
            [left; replace (j + 1) with k by lia;
             replace j with (k - 1) by lia; apply Hprev; lia
            |apply Hpairs; lia]
           |intros j Hj (w' & Hw' & Hz'); destruct (Z.eq_dec j k) as [->|E];
            [congruence|apply Hzero; [lia|exists w'; tauto]]]).
Qed.

(** X8: the second clean-up of the test, on a square matrix of order
    [n >= 1] with [wi] of length [n]: it returns; it changes nothing but
    entries of the first subdiagonal, which it sets to zero; afterwards
    [U(k+1,k)] is zero wherever [wi[k] == 0], and of two consecutive
    subdiagonal entries at least one is zero, whatever [wi] holds: the
    diagonal blocks left are 1x1 or 2x2. *)
Theorem separate_blocks_quasi_triangular n wi U :
  nrows U = n -> ncols U = n -> 1 <= n < idx_modulus ->
  Z.of_nat (length wi) = n ->
  exists U',
    separate_blocks n wi U = Ok U'
    /\ subdiagonal_zeroed U U'
    /\ (forall j, 0 <= j -> j + 2 < n ->
          entry U' (j + 1) j = rzero \/ entry U' (j + 2) (j + 1) = rzero)
    /\ (forall j, 0 <= j < n - 1 -> wi_zero wi j ->
          entry U' (j + 1) j = rzero).
Proof.
  intros Hr Hc Hn Hlen. unfold separate_blocks.
  apply (zero_between_blocks_spec n wi U); try assumption; try lia.
  - rewrite idx_sub_exact by lia. lia.
  - repeat split. intros i j. now left.
Qed.

(** X9: for [n == 0] the bound [n - 1] of the second clean-up wraps
    around: the loop is entered and reads [wi[0]] of an empty vector. *)
Theorem separate_blocks_empty U :
  separate_blocks 0 [] U = Err OutOfBounds.
Proof.
  unfold separate_blocks.
  assert (Hm : 1 < idx_modulus) by reflexivity.
  rewrite (idx_sub_below 0 1) by lia.
  destruct (Z.to_nat (0 - 1 + idx_modulus)) as [|fuel] eqn:E; [lia|].
  cbn [zero_between_blocks]. rewrite (idx_sub_below 0 1) by lia.
  destruct (Z.ltb_spec 0 (0 - 1 + idx_modulus)); [|lia].
  reflexivity.
Qed.

(** One entry of [Zc], when the reads it needs are inside [Z]. *)
Lemma complex_entry_spec n wi (Zm : matrix T) i j :
  nrows Zm = n -> ncols Zm = n -> n < idx_modulus ->
  Z.of_nat (length wi) = n ->
  0 <= i < n -> 0 <= j < n ->
  (wi_positive wi j -> j + 1 < n) -> (wi_negative wi j -> 1 <= j) ->
  exists c,
    complex_entry wi Zm i j = Ok c
    /\ (wi_zero wi j -> c = (entry Zm i j, rzero))
    /\ (wi_positive wi j -> c = (entry Zm i j, entry Zm i (j + 1)))
    /\ (wi_negative wi j -> c = (entry Zm i (j - 1), ropp (entry Zm i j))).
Proof.
  intros Hr Hc Hn Hlen Hi Hj Hpos Hneg. unfold complex_entry.
  destruct (get_in_range wi j ltac:(lia)) as [w Hw].
  rewrite (vec_read_ok wi j w) by (lia || assumption). cbn [bind].
  destruct (reqb w rzero) eqn:Hw0; [|destruct (rltb rzero w) eqn:Hwp].
  - rewrite read_ok by lia. cbn [bind]. eexists. split; [reflexivity|].
    split; [reflexivity|].
    split; intros (w' & Hw' & Hz & _); congruence.
  - assert (Hj1 : j + 1 < n) by (apply Hpos; exists w; tauto).
    rewrite (idx_add_exact j 1) by lia.
    rewrite !read_ok by lia. cbn [bind]. eexists. split; [reflexivity|].
    split; [intros (w' & Hw' & Hz); congruence|].
    split; [reflexivity|]. intros (w' & Hw' & _ & Hz); congruence.
  - assert (Hj1 : 1 <= j) by (apply Hneg; exists w; tauto).
    rewrite (idx_sub_exact j 1) by lia.
    rewrite !read_ok by lia. cbn [bind]. eexists. split; [reflexivity|].
    split; [intros (w' & Hw' & Hz); congruence|].
    split; [intros (w' & Hw' & _ & Hz); congruence|reflexivity].
Qed.

(** The two loops that fill [Zc]. *)
Lemma complex_eigenvectors_spec n wi (Zm : matrix T) (Zc : matrix (T * T)) :
  nrows Zm = n -> ncols Zm = n -> nrows Zc = n -> ncols Zc = n ->
  0 <= n < idx_modulus -> Z.of_nat (length wi) = n ->
  (forall j, 0 <= j < n -> wi_positive wi j -> j + 1 < n) ->
  (forall j, 0 <= j < n -> wi_negative wi j -> 1 <= j) ->
  exists Zc',
    complex_eigenvectors n wi Zm Zc = Ok Zc'
    /\ nrows Zc' = n /\ ncols Zc' = n
    /\ forall i j, 0 <= i < n -> 0 <= j < n ->
         (wi_zero wi j -> entry Zc' i j = (entry Zm i j, rzero))
         /\ (wi_positive wi j ->
             entry Zc' i j = (entry Zm i j, entry Zm i (j + 1)))
         /\ (wi_negative wi j ->
             entry Zc' i j = (entry Zm i (j - 1), ropp (entry Zm i j))).
Proof.
  intros Hr Hc Hrc Hcc Hn Hlen Hpos Hneg. unfold complex_eigenvectors.
  set (P := fun (i j : Z) (c : T * T) =>
              (wi_zero wi j -> c = (entry Zm i j, rzero))
              /\ (wi_positive wi j -> c = (entry Zm i j, entry Zm i (j + 1)))
              /\ (wi_negative wi j ->
                  c = (entry Zm i (j - 1), ropp (entry Zm i j)))).
  apply (for_loop_rule
           (fun j (V : matrix (T * T)) => nrows V = n /\ ncols V = n
              /\ forall r c, 0 <= r < n -> 0 <= c < j -> P r c (entry V r c)));
    try lia.
  - intros j V Hj (Hr' & Hc' & He).
    destruct (for_loop_rule
                (fun i (W : matrix (T * T)) => nrows W = n /\ ncols W = n
                   /\ (forall r c, 0 <= r < n -> 0 <= c < j ->
                         P r c (entry W r c))
                   /\ forall r, 0 <= r < i -> P r j (entry W r j))
                (fun i (W : matrix (T * T)) =>
                   try c <- complex_entry wi Zm i j ; write W i j c)
                n ltac:(lia)) with (fuel := Z.to_nat n) (i := 0) (s := V)
      as (W & HW & Hr'' & Hc'' & Hold & Hnew); try lia.
    + intros i W Hi (Hrw & Hcw & Hold & Hnew).
      destruct (complex_entry_spec n wi Zm i j Hr Hc ltac:(lia) Hlen Hi Hj
                  (Hpos j Hj) (Hneg j Hj)) as (c & -> & Hcval).
      cbn [bind].
      destruct (write_ok W i j c) as [W' HW']; [lia..|].
      exists W'. split; [assumption|].
      apply write_inv in HW' as (Hrw' & Hcw' & _ & _ & He').
      split; [lia|]. split; [lia|]. split.
      * intros r c0 Hr0 Hc0. rewrite He'.
        destruct (Z.eqb_spec r i), (Z.eqb_spec c0 j); cbn; try lia;
          now apply Hold.
      * intros r Hr0. rewrite He'. rewrite Z.eqb_refl.
        destruct (Z.eqb_spec r i) as [->|Hne]; cbn; [exact Hcval|].
        apply Hnew. lia.
    + split; [assumption|]. split; [assumption|]. split; [assumption|].
      intros r0 Hr0. lia.
    + exists W. split; [assumption|]. split; [assumption|].
      split; [assumption|].
      intros r c Hr0 Hc0. destruct (Z.eq_dec c j) as [->|Hne].
      * now apply Hnew.
      * apply Hold; lia.
  - split; [assumption|]. split; [assumption|].
    intros r0 c0 Hr0 Hc0. lia.
Qed.

(** X10: the complex eigenvector matrix.  With [Z] and [Zc] of order [n],
    [wi] of length [n], no positive [wi] in the last row and no negative
    one in the first, the construction returns and column [j] of [Zc] is
    [Z(:,j)] with zero imaginary part where [wi[j] == 0],
    [Z(:,j) + i Z(:,j+1)] where [wi[j] > 0], and [Z(:,j-1) - i Z(:,j)]
    otherwise. *)
Theorem complex_eigenvectors_columns n wi (Zm : matrix T) (Zc : matrix (T * T)) :
  nrows Zm = n -> ncols Zm = n -> nrows Zc = n -> ncols Zc = n ->
  0 <= n < idx_modulus -> Z.of_nat (length wi) = n ->
  (forall j, 0 <= j < n -> wi_positive wi j -> j + 1 < n) ->
  (forall j, 0 <= j < n -> wi_negative wi j -> 1 <= j) ->
  exists Zc',
    complex_eigenvectors n wi Zm Zc = Ok Zc'
    /\ nrows Zc' = n /\ ncols Zc' = n
    /\ forall i j, 0 <= i < n -> 0 <= j < n ->
         (wi_zero wi j -> entry Zc' i j = (entry Zm i j, rzero))
         /\ (wi_positive wi j ->
             entry Zc' i j = (entry Zm i j, entry Zm i (j + 1)))
         /\ (wi_negative wi j ->
             entry Zc' i j = (entry Zm i (j - 1), ropp (entry Zm i j))).
Proof. apply complex_eigenvectors_spec. Qed.

(** X11: under the same conditions, where a positive [wi[j]] is followed
    by a negative [wi[j+1]], column [j+1] of [Zc] is the complex conjugate
    of column [j]. *)
Theorem complex_eigenvectors_conjugate n wi (Zm : matrix T)
  (Zc : matrix (T * T)) :
  nrows Zm = n -> ncols Zm = n -> nrows Zc = n -> ncols Zc = n ->
  0 <= n < idx_modulus -> Z.of_nat (length wi) = n ->
  (forall j, 0 <= j < n -> wi_positive wi j -> j + 1 < n) ->
  (forall j, 0 <= j < n -> wi_negative wi j -> 1 <= j) ->
  exists Zc',
    complex_eigenvectors n wi Zm Zc = Ok Zc'
    /\ forall i j, 0 <= i < n -> 0 <= j ->
         wi_positive wi j -> wi_negative wi (j + 1) ->
         entry Zc' i (j + 1) = cconj (entry Zc' i j).
Proof.
  intros Hr Hc Hrc Hcc Hn Hlen Hpos Hneg.
  destruct (complex_eigenvectors_spec n wi Zm Zc Hr Hc Hrc Hcc Hn Hlen Hpos Hneg)
    as (Zc' & E & _ & _ & Hcol).
  exists Zc'. split; [assumption|].
  intros i j Hi Hj Hp Hm.
  assert (Hjn : j + 1 < n).
  { destruct Hm as (w & Hw & _). unfold get in Hw.
    apply lookup_lt_Some in Hw. lia. }
  destruct (Hcol i j Hi ltac:(lia)) as (_ & Hcp & _).
  destruct (Hcol i (j + 1) Hi ltac:(lia)) as (_ & _ & Hcm).
  rewrite (Hcm Hm), (Hcp Hp). unfold cconj. cbn.
  now replace (j + 1 - 1) with j by lia.
Qed.

(** X12: the construction reads outside [Z], and does not return, when
    [wi] is positive in the last row (it reads column [n]) or negative in
    the first (it reads column [-1], in index arithmetic [2^64 - 1]). *)
Theorem complex_eigenvectors_out_of_range n wi (Zm : matrix T)
  (Zc : matrix (T * T)) :
  nrows Zm = n -> ncols Zm = n ->
  1 <= n < idx_modulus ->
  wi_positive wi (n - 1) \/ wi_negative wi 0 ->
  exists e, complex_eigenvectors n wi Zm Zc = Err e.
Proof.
  intros Hr Hc Hn Hedge. unfold complex_eigenvectors.
  assert (Hfail : exists j, 0 <= j < n /\
            forall i, exists e, complex_entry wi Zm i j = Err e).
  { destruct Hedge as [(w & Hw & Hz & Hp)|(w & Hw & Hz & Hp)].
    - exists (n - 1). split; [lia|]. intros i. unfold complex_entry.
      rewrite (vec_read_ok wi (n - 1) w) by (lia || assumption).
      cbn [bind]. rewrite Hz, Hp.
      destruct (read Zm i (n - 1)); cbn [bind]; [|eauto].
      rewrite (idx_add_exact (n - 1) 1) by lia.
      rewrite read_err by lia. cbn [bind]. eauto.
    - exists 0. split; [lia|]. intros i. unfold complex_entry.
      rewrite (vec_read_ok wi 0 w) by (lia || assumption).
      cbn [bind]. rewrite Hz, Hp.
      rewrite (idx_sub_below 0 1) by lia.
      rewrite read_err by lia. cbn [bind]. eauto. }
  destruct Hfail as (j & Hj & Hfail).
  apply (for_loop_fail _ n j); try lia.
  intros V. apply (for_loop_fail _ n 0); try lia.
  intros W. destruct (Hfail 0) as (e & ->). cbn [bind]. eauto.
Qed.

End TestFacts.

(** ** The routine and the test's loops on sample inputs *)

Lemma formshift_status_table_witness :
  (0 = 1 <-> 0 = 2)
  /\ (0 = 2 <-> 0 <> 2 /\ 0 = idx_sub 2 1)
  /\ (0 = 3 <-> 0 <> 2 /\ 0 <> idx_sub 2 1 /\ 5 = 0)
  /\ (0 = 0 <-> 0 <> 2 /\ 0 <> idx_sub 2 1 /\ 5 <> 0)
  /\ 0 <= 0 <= 3.
Proof.
  exact (formshift_status_table 0 sample3 3 5 2 0 shift0 0 sample3
           ordinary_out eq_refl).
Defined.

Lemma formshift_idempotent_witness :
  hqr_formshift 0 sample3 3 5 2 0 ordinary_out = Ok (0, sample3, ordinary_out).
Proof.
  apply (formshift_idempotent 0 sample3 3 5 2 0 shift0 0 sample3 ordinary_out);
    [reflexivity | right; lia].
Defined.

Lemma formshift_returns_iff_witness :
  (exists r, hqr_formshift 0 sample3 10 5 1 5 shift0 = Ok r)
  <-> 1 < ncols sample3
      /\ (5 = 1
          \/ (1 <= 1
              /\ (5 = 1 - 1 \/ 5 = 0 \/ (10 <> 10 /\ 5 <> 20) \/ 2 <= 1))).
Proof.
  apply (formshift_returns_iff 0 sample3 10 5 1 5 shift0);
    [reflexivity | unfold idx_modulus; cbn; lia | lia | lia].
Defined.

Lemma full3_shape : nrows full3 = 3 /\ ncols full3 = 3 /\ 0 <= 3 < idx_modulus.
Proof. unfold idx_modulus. cbn. lia. Qed.

Lemma zero_below_subdiagonal_hessenberg_witness :
  exists U',
    zero_below_subdiagonal 3 full3 = Ok U' /\ nrows U' = 3 /\ ncols U' = 3
    /\ forall i j,
         entry U' i j =
         if (0 <=? j) && (j + 1 <? i) && (i <? 3) then rzero
         else entry full3 i j.
Proof.
  apply (zero_below_subdiagonal_hessenberg 3 full3);
    [reflexivity | reflexivity | apply full3_shape].
Defined.

Lemma separate_blocks_quasi_triangular_witness :
  exists U',
    separate_blocks 3 wi3 full3 = Ok U'
    /\ subdiagonal_zeroed full3 U'
    /\ (forall j, 0 <= j -> j + 2 < 3 ->
          entry U' (j + 1) j = rzero \/ entry U' (j + 2) (j + 1) = rzero)
    /\ (forall j, 0 <= j < 3 - 1 -> wi_zero wi3 j ->
          entry U' (j + 1) j = rzero).
Proof.
  apply (separate_blocks_quasi_triangular 3 wi3 full3);
    [reflexivity | reflexivity | unfold idx_modulus; cbn; lia | reflexivity].
Defined.

Lemma wi3_positive j : 0 <= j < 3 -> wi_positive wi3 j -> j + 1 < 3.
Proof.
  intros Hj (w & Hw & Hz & Hp).
  assert (j = 0 \/ j = 1 \/ j = 2) as [-> | [-> | ->]] by lia;
    cbn in Hw; injection Hw as <-; (lia || discriminate).
Qed.

Lemma wi3_negative j : 0 <= j < 3 -> wi_negative wi3 j -> 1 <= j.
Proof.
  intros Hj (w & Hw & Hz & Hp).
  assert (j = 0 \/ j = 1 \/ j = 2) as [-> | [-> | ->]] by lia;
    cbn in Hw; injection Hw as <-; (lia || discriminate).
Qed.

Lemma complex_eigenvectors_columns_witness :
  exists Zc',
    complex_eigenvectors 3 wi3 full3 zc0 = Ok Zc'
    /\ nrows Zc' = 3 /\ ncols Zc' = 3
    /\ forall i j, 0 <= i < 3 -> 0 <= j < 3 ->
         (wi_zero wi3 j -> entry Zc' i j = (entry full3 i j, rzero))
         /\ (wi_positive wi3 j ->
             entry Zc' i j = (entry full3 i j, entry full3 i (j + 1)))
         /\ (wi_negative wi3 j ->
             entry Zc' i j = (entry full3 i (j - 1), ropp (entry full3 i j))).
Proof.
  apply (complex_eigenvectors_columns 3 wi3 full3 zc0);
    [reflexivity | reflexivity | reflexivity | reflexivity
    | apply full3_shape | reflexivity | apply wi3_positive | apply wi3_negative].
Defined.

Lemma complex_eigenvectors_conjugate_witness :
  exists Zc',
    complex_eigenvectors 3 wi3 full3 zc0 = Ok Zc'
    /\ forall i j, 0 <= i < 3 -> 0 <= j ->
         wi_positive wi3 j -> wi_negative wi3 (j + 1) ->
         entry Zc' i (j + 1) = cconj (entry Zc' i j).
Proof.
  apply (complex_eigenvectors_conjugate 3 wi3 full3 zc0);
    [reflexivity | reflexivity | reflexivity | reflexivity
    | apply full3_shape | reflexivity | apply wi3_positive | apply wi3_negative].
Defined.

Lemma complex_eigenvectors_out_of_range_witness :
  exists e, complex_eigenvectors 3 wi_bad full3 zc0 = Err e.
Proof.
  apply (complex_eigenvectors_out_of_range 3 wi_bad full3 zc0);
    [reflexivity | reflexivity | unfold idx_modulus; cbn; lia |].
  left. exists 2%Q. repeat split.
Defined.

(** The sample runs, evaluated. *)
Example complex_eigenvectors_sample :
  match complex_eigenvectors 3 wi3 full3 zc0 with
  | Ok Zc' =>
      map (fun j => entry Zc' 0 j) [0; 1; 2]
      = [(1, -5); (1, - -5); (2, 0)]%Q
  | Err _ => False
  end.
Proof. reflexivity. Qed.

Example clean_up_sample :
  match (try U <- zero_below_subdiagonal 3 full3 ; separate_blocks 3 wi3 U) with
  | Ok U' =>
      map (fun i => map (fun j => entry U' i j) [0; 1; 2]) [0; 1; 2]
      = [[1; -5; 2]; [1; 3; 1]; [0; 0; 6]]%Q
  | Err _ => False
  end.
Proof. reflexivity. Qed.

(** ** The exceptional shift on an empty range *)

Section FormshiftEdge.

Context {T : Type} `{RealType T}.

(** X13: when [low] is above [en] the diagonal loop has no turn: no call
    changes the matrix, the exceptional shift included (which still moves
    [x] into [t] and reseeds [x], [y], [w]). *)
Theorem formshift_empty_range low (A : matrix T) its itn en l st status A' st' :
  en < low ->
  hqr_formshift low A its itn en l st = Ok (status, A', st') ->
  A' = A.
Proof.
  intros Hlow. unfold hqr_formshift.
  destruct (negb (ncols A =? nrows A)); [discriminate|].
  destruct (read A en en) as [x0|]; [cbn|discriminate].
  destruct (l =? en); [now intros [= _ <- _]|].
  destruct (read A (idx_sub en 1) (idx_sub en 1)) as [y0|]; [cbn|discriminate].
  destruct (read A en (idx_sub en 1)) as [a|]; [cbn|discriminate].
  destruct (read A (idx_sub en 1) en) as [b|]; [cbn|discriminate].
  destruct (l =? idx_sub en 1); [now intros [= _ <- _]|].
  destruct (itn =? 0); [now intros [= _ <- _]|].
  destruct (negb (its =? 10) && negb (itn =? 20)); [now intros [= _ <- _]|].
  assert (Hloop : forall fuel,
            shift_diagonal fuel low en x0 A = Ok A).
  { intros [|fuel]; cbn; destruct (Z.leb_spec low en); (lia || reflexivity). }
  rewrite Hloop. cbn.
  destruct (read A en (idx_sub en 1)) as [c|]; [cbn|discriminate].
  destruct (read A (idx_sub en 1) (idx_sub en 2)) as [d|]; [cbn|discriminate].
  now intros [= _ <- _].
Qed.

End FormshiftEdge.

Lemma formshift_empty_range_witness :
  out_matrix (hqr_formshift 3 sample3 10 5 2 0 shift0) = sample3.
Proof.
  apply (formshift_empty_range 3 sample3 10 5 2 0 shift0 0 _
           (out_shift (hqr_formshift 3 sample3 10 5 2 0 shift0)));
    [lia | reflexivity].
Defined.
